(** * juicesync: the listing iterator, the merge-join diff and the replicator

    A shallow embedding of [sync.go].  Channels of [*object.Object] are
    modelled by the finite sequence of values sent on them before they are
    closed; a [nil] pointer sent on a channel is [None].  The package-level
    counters are [uint64] and are kept as [Z] with the wrap-around written
    out.  Calls into an [object.ObjectStorage] are explicit state passing
    over the state of the store. *)

From Stdlib Require Import ZArith List String Ascii Bool Lia.
From Stdlib Require Import Structures.OrderedTypeEx.
From Stdlib Require Init.Byte.
Import ListNotations.

Local Open Scope string_scope.
Local Open Scope list_scope.
Local Open Scope Z_scope.

(** ** Keys: Go strings compared byte-wise *)

Module Keys.

(** Go's [a < b], [a <= b] on strings; [a > b] is [lt b a], [a >= b] is
    [le b a]. *)
Definition lt (a b : string) : bool := String.ltb a b.
Definition le (a b : string) : bool := String.leb a b.

End Keys.

(** ** Object records and channels *)

(** [object.Object]: the two fields the program reads. *)
Record Object : Type := mkObject { Key : string; Size : Z }.

(** What a channel of [*object.Object] delivers before it is closed. *)
Definition chan : Type := list (option Object).

Definition error : Type := string.

(** ** The shared counters *)

Definition uint64_add (x y : Z) : Z := (x + y) mod 2 ^ 64.
Definition uint64_sub (x y : Z) : Z := (x - y) mod 2 ^ 64.
Definition uint64_mul (x y : Z) : Z := (x * y) mod 2 ^ 64.

Record Stats : Type := mkStats {
  found : Z;
  missing : Z;
  copied : Z;
  failed : Z
}.

Definition add_found (s : Stats) : Stats :=
  mkStats (uint64_add (found s) 1) (missing s) (copied s) (failed s).
Definition add_missing (s : Stats) : Stats :=
  mkStats (found s) (uint64_add (missing s) 1) (copied s) (failed s).
Definition add_copied (s : Stats) : Stats :=
  mkStats (found s) (missing s) (uint64_add (copied s) 1) (failed s).
Definition add_failed (s : Stats) : Stats :=
  mkStats (found s) (missing s) (copied s) (uint64_add (failed s) 1).

(** ** doSync: the merge-join over the two listings *)

Module Diff.

(** What the main goroutine of [doSync] does, in program order. *)
Inductive event : Type :=
| AddFound
| Enqueue (obj : Object)
| AddMissing.

Definition replay1 (s : Stats) (e : event) : Stats :=
  match e with
  | AddFound => add_found s
  | Enqueue _ => s
  | AddMissing => add_missing s
  end.

Definition replay (s : Stats) (l : list event) : Stats := fold_left replay1 l s.

Record state : Type := mkState {
  dstkey : string;
  hasMore : bool;
  dstkeys : chan;
  todo : list Object;
  stats : Stats;
  log : list event
}.

(** How a loop body ends: on to the next turn, or out of the loop
    labelled [OUT]. *)
Inductive flow (A : Type) : Type :=
| Next (a : A)
| BreakOut (a : A).

Arguments Next {A} _.
Arguments BreakOut {A} _.

Definition after {A : Type} (f : flow A) : A :=
  match f with
  | Next a => a
  | BreakOut a => a
  end.

(** The inner loop [for hasMore && obj.Key > dstkey]: the cursor, [hasMore]
    and what is left of the destination channel. *)
Fixpoint advance (key dkey : string) (more : bool) (dst : chan)
  : flow (string * bool * chan) :=
  if more && Keys.lt dkey key then
    match dst with
    | [] => Next (dkey, false, [])
    | None :: rest => BreakOut (dkey, more, rest)
    | Some dstobj :: rest => advance key (Key dstobj) true rest
    end
  else Next (dkey, more, dst).

(** One source record: lines 147-163. *)
Definition body (st : state) (obj : Object) : flow state :=
  let stats1 := add_found (stats st) in
  let log1 := log st ++ [AddFound] in
  match advance (Key obj) (dstkey st) (hasMore st) (dstkeys st) with
  | BreakOut (dkey, more, dst) =>
      BreakOut (mkState dkey more dst (todo st) stats1 log1)
  | Next (dkey, more, dst) =>
      if Keys.lt (Key obj) dkey || negb more then
        Next (mkState dkey more dst (todo st ++ [obj]) (add_missing stats1)
                (log1 ++ [Enqueue obj; AddMissing]))
      else Next (mkState dkey more dst (todo st) stats1 log1)
  end.

(** [for obj := range srckeys]; returns the final state and the part of the
    source channel that was never received. *)
Fixpoint loop (st : state) (srckeys : chan) : state * chan :=
  match srckeys with
  | [] => (st, [])
  | None :: rest => (st, rest)
  | Some obj :: rest =>
      match body st obj with
      | BreakOut st' => (st', rest)
      | Next st' => loop st' rest
      end
  end.

Definition init (s : Stats) (dst : chan) : state :=
  mkState "" true dst [] s [].

End Diff.

(** The comparison loop of [doSync], up to [close(todo)]. *)
Definition doSync (s : Stats) (srckeys dstkeys : chan) : Diff.state * chan :=
  Diff.loop (Diff.init s dstkeys) srckeys.

(** ** The object store interface *)

Definition bytes : Type := list Byte.byte.

(** An [io.ReadCloser] handed out by [Get]: the bytes it delivers and the
    error, if any, that ends the stream in place of [io.EOF]. *)
Record Reader : Type := mkReader { delivered : bytes; broke : option error }.

(** [object.ObjectStorage], a Go interface declared outside this file; a
    store is taken as its four methods over the state [S] of the store.
    [Exists] answers [nil] (here [None]) when the key is there. *)
Record ObjectStorage (S : Type) : Type := mkStore {
  List : S -> string -> string -> Z -> (list Object + error) * S;
  Get : S -> string -> Z -> Z -> (Reader + error) * S;
  Put : S -> string -> bytes -> option error * S;
  Exists : S -> string -> option error * S
}.

Arguments List {S} _ _ _ _ _.
Arguments Get {S} _ _ _ _ _.
Arguments Put {S} _ _ _ _.
Arguments Exists {S} _ _ _.

(** The max number of key per listing request *)
Definition MaxResults : Z := 10240.
Definition maxBlock : Z := Z.shiftl 10 20.

(** ** Iterate: a paginated listing as one stream *)

Module Listing.

(** How the scan of one page ends. *)
Inductive page_end : Type :=
| PageDone (lastkey : string)
| PageBreak (obj : Object)
| PageFatal (lastkey : string) (obj : Object).

(** [for _, obj := range objs]: the records sent on [out], and how the
    page ended. *)
Fixpoint scan_page (end_ : string) (objs : list Object) (lastkey : string)
  : list Object * page_end :=
  match objs with
  | [] => ([], PageDone lastkey)
  | obj :: rest =>
      let key := Key obj in
      if negb (key =? "")%string && Keys.le key lastkey then
        ([], PageFatal lastkey obj)
      else if negb (end_ =? "")%string && Keys.le end_ key then
        ([], PageBreak obj)
      else
        let (sent, e) := scan_page end_ rest key in (obj :: sent, e)
  end.

(** How the producer goroutine ends. *)
Inductive stop : Type :=
| Exhausted
| ReachedEnd (obj : Object)
| ListFailed (e : error)
| Fatal (lastkey : string) (obj : Object)
| OutOfFuel.

(** One run of the producer: what it sent on [out], the listing requests
    made (marker and answer, the caller's first request included), how it
    ended, and the store afterwards. *)
Record run (S : Type) : Type := mkRun {
  out : chan;
  calls : list (string * (list Object + error));
  ended : stop;
  store_after : S
}.

Arguments mkRun {S} _ _ _ _.
Arguments out {S} _.
Arguments calls {S} _.
Arguments ended {S} _.
Arguments store_after {S} _.

Definition emit {S : Type} (objs : list Object) (r : run S) : run S :=
  mkRun (map Some objs ++ out r) (calls r) (ended r) (store_after r).

Definition called {S : Type} (c : string * (list Object + error)) (r : run S) : run S :=
  mkRun (out r) (c :: calls r) (ended r) (store_after r).

(** [for len(objs) > 0]; [fuel] bounds the number of pages scanned. *)
Fixpoint pages {S : Type} (fuel : nat) (store : ObjectStorage S) (st : S)
  (end_ : string) (objs : list Object) (lastkey : string) : run S :=
  match objs with
  | [] => mkRun [] [] Exhausted st
  | _ :: _ =>
      match fuel with
      | O => mkRun [] [] OutOfFuel st
      | Datatypes.S fuel' =>
          match scan_page end_ objs lastkey with
          | (sent, PageFatal lk obj) => mkRun (map Some sent) [] (Fatal lk obj) st
          | (sent, PageBreak obj) => mkRun (map Some sent) [] (ReachedEnd obj) st
          | (sent, PageDone lastkey') =>
              let marker := lastkey' in
              match List store st "" marker MaxResults with
              | (inr e, st') =>
                  emit sent (mkRun [None] [(marker, inr e)] (ListFailed e) st')
              | (inl objs', st') =>
                  emit sent (called (marker, inl objs')
                               (pages fuel' store st' end_ objs' lastkey'))
              end
          end
      end
  end.

End Listing.

(** [Iterate]: the first page is listed by the caller's goroutine; a failure
    there is the returned error and no channel is made. *)
Definition Iterate {S : Type} (fuel : nat) (store : ObjectStorage S) (st : S)
  (marker end_ : string) : Listing.run S + error :=
  match List store st "" marker MaxResults with
  | (inr err, _) => inr err
  | (inl objs, st') =>
      inl (Listing.called (marker, inl objs)
             (Listing.pages fuel store st' end_ objs ""))
  end.

(** A store that answers its listing requests from a script, whatever the
    marker; once the script is used up the listing is empty. *)
Definition scripted (get : string -> Z -> Z -> Reader + error)
  (exists_ : string -> option error)
  : ObjectStorage (list (list Object + error)) :=
  mkStore _
    (fun s _ _ _ => match s with [] => (inl [], []) | r :: s' => (r, s') end)
    (fun s k o l => (get k o l, s))
    (fun s _ _ => (None, s))
    (fun s k => (exists_ k, s)).

Definition listing_only : ObjectStorage (list (list Object + error)) :=
  scripted (fun _ _ _ => inr "no such object") (fun _ => None).

(** ** replicate: one object from the source to the destination *)

Module Replicate.

(** The local disk as [replicate] sees it: whether each call on the
    temporary file fails. *)
Record Disk : Type := mkDisk {
  tempfile_err : option error;
  write_err : option error;
  copy_err : option error;
  seek_err : option error
}.

Definition healthy : Disk := mkDisk None None None None.

(** The calls [replicate] makes, in program order. *)
Inductive op : Type :=
| SrcGet (key : string) (off limit : Z)
| SrcExists (key : string)
| DstPut (key : string) (body : bytes)
| TempFile
| Remove
| FileWrite (data : bytes)
| FileCopy (data : bytes)
| FileSeek
| FileClose.

Record outcome (A B : Type) : Type := mkOutcome {
  result : option error;
  trace : list op;
  src_after : A;
  dst_after : B
}.

Arguments mkOutcome {A B} _ _ _ _.
Arguments result {A B} _.
Arguments trace {A B} _.
Arguments src_after {A B} _.
Arguments dst_after {A B} _.

(** [io.Copy(f, in)]: the reader's error, else the disk's. *)
Definition io_copy (d : Disk) (r : Reader) : option error :=
  match broke r with
  | Some e => Some e
  | None => copy_err d
  end.

End Replicate.

Import Replicate.

Definition replicate {A B : Type} (src : ObjectStorage A) (dst : ObjectStorage B)
  (d : Disk) (sa : A) (sb : B) (obj : Object) : outcome A B :=
  let key := Key obj in
  let firstBlock := if Size obj >? maxBlock then maxBlock else -1 in
  let t0 := [SrcGet key 0 firstBlock] in
  match Get src sa key 0 firstBlock with
  | (inr e, sa1) =>
      match Exists src sa1 key with
      | (Some _, sa2) => mkOutcome None (t0 ++ [SrcExists key]) sa2 sb
      | (None, sa2) => mkOutcome (Some e) (t0 ++ [SrcExists key]) sa2 sb
      end
  | (inl in_, sa1) =>
      let data := delivered in_ in
      match broke in_ with
      | Some err => mkOutcome (Some err) t0 sa1 sb
      | None =>
          if firstBlock =? -1 then
            let (r, sb1) := Put dst sb key data in
            mkOutcome r (t0 ++ [DstPut key data]) sa1 sb1
          else
            (* download the object into disk first *)
            match tempfile_err d with
            | Some err => mkOutcome (Some err) (t0 ++ [TempFile]) sa1 sb
            | None =>
                let t1 := t0 ++ [TempFile; Remove; FileWrite data] in
                match write_err d with
                | Some err => mkOutcome (Some err) (t1 ++ [FileClose]) sa1 sb
                | None =>
                    let off := Z.of_nat (List.length data) in
                    let t2 := t1 ++ [SrcGet key off (-1)] in
                    match Get src sa1 key off (-1) with
                    | (inr e, sa2) => mkOutcome (Some e) (t2 ++ [FileClose]) sa2 sb
                    | (inl in2, sa2) =>
                        let t3 := t2 ++ [FileCopy (delivered in2)] in
                        match io_copy d in2 with
                        | Some e => mkOutcome (Some e) (t3 ++ [FileClose]) sa2 sb
                        | None =>
                            (* upload *)
                            match seek_err d with
                            | Some e =>
                                mkOutcome (Some e) (t3 ++ [FileSeek; FileClose]) sa2 sb
                            | None =>
                                let body := data ++ delivered in2 in
                                let (r, sb1) := Put dst sb key body in
                                mkOutcome r
                                  (t3 ++ [FileSeek; DstPut key body; FileClose])
                                  sa2 sb1
                            end
                        end
                    end
                end
            end
      end
  end.

(** ** The replication pool, one worker *)

(** Lines 128-133: what a worker does with the answer of [replicate]. *)
Definition account (s : Stats) (r : option error) : Stats :=
  match r with
  | Some _ => add_failed s
  | None => add_copied s
  end.

(** A worker draining [todo] until it is closed. *)
Fixpoint worker {A B : Type} (src : ObjectStorage A) (dst : ObjectStorage B)
  (d : Disk) (sa : A) (sb : B) (s : Stats) (todo : list Object) : Stats * A * B :=
  match todo with
  | [] => (s, sa, sb)
  | obj :: rest =>
      let o := replicate src dst d sa sb obj in
      worker src dst d (src_after o) (dst_after o) (account s (result o)) rest
  end.

(** ** showProgress: one turn of the display loop *)

Module Progress.

(** Go's [/] on [uint64]: a zero divisor is a run-time panic, here [None]. *)
Definition uint64_div (x y : Z) : option Z :=
  if y =? 0 then None else Some (x / y).

Definition bind {A B : Type} (m : option A) (k : A -> option B) : option B :=
  match m with
  | Some x => k x
  | None => None
  end.

Notation "x <- m ;; k" := (bind m (fun x => k))
  (at level 61, m at next level, right associativity).

Definition cell (a b i : Z) : Byte.byte :=
  if i <? a then Byte.x3d          (* '=' *)
  else if i <? uint64_add a b then Byte.x2b   (* '+' *)
  else Byte.x20.                   (* ' ' *)

End Progress.

Import Progress.

(** One turn of the loop of [showProgress], lines 173-192, from one reading
    [s] of the counters: the bar and the percentage printed.  The rate is
    floating point and is left out. *)
Definition showProgress (s : Stats) : option (bytes * Z) :=
  let same := uint64_sub (found s) (missing s) in
  let width := 80 in
  a <- uint64_div (uint64_mul width same) (found s) ;;
  b <- uint64_div (uint64_mul width (copied s)) (found s) ;;
  let bar := map (fun i => cell a b (Z.of_nat i)) (seq 0 (Z.to_nat width)) in
  pct <- uint64_div
           (uint64_mul (uint64_add (uint64_sub (found s) (missing s)) (copied s)) 100)
           (found s) ;;
  Some (bar, pct).


(** ** Sync *)

Inductive sync_result : Type :=
| Returned (err : option error) (s : Stats)
| Aborted          (* [logger.Fatalf] in a producer ended the process *)
| NoAnswer.        (* a listing did not end within the fuel *)

Definition is_fatal (e : Listing.stop) : bool :=
  match e with Listing.Fatal _ _ => true | _ => false end.

Definition is_out_of_fuel (e : Listing.stop) : bool :=
  match e with Listing.OutOfFuel => true | _ => false end.

(** [Sync]: the two producers are run to their end before the comparison,
    and the pool is one worker that drains the queue after it is closed. *)
Definition Sync {A B : Type} (fuel : nat) (src : ObjectStorage A)
  (dst : ObjectStorage B) (d : Disk) (sa : A) (sb : B) (s : Stats)
  (marker end_ : string) : sync_result :=
  match Iterate fuel src sa marker end_ with
  | inr err => Returned (Some err) s
  | inl cha =>
      match Iterate fuel dst sb marker end_ with
      | inr err => Returned (Some err) s
      | inl chb =>
          if is_fatal (Listing.ended cha) || is_fatal (Listing.ended chb) then Aborted
          else if is_out_of_fuel (Listing.ended cha)
                  || is_out_of_fuel (Listing.ended chb) then NoAnswer
          else
            let (st, _) := doSync s (Listing.out cha) (Listing.out chb) in
            let '(s', _, _) :=
              worker src dst d (Listing.store_after cha) (Listing.store_after chb)
                (Diff.stats st) (Diff.todo st) in
            Returned None s'
      end
  end.

(** ** Vocabulary of the properties *)

(** The records a channel delivers, failure markers left out. *)
Definition records (c : chan) : list Object :=
  flat_map (fun x => match x with Some o => [o] | None => [] end) c.

(** A listing in strictly increasing key order. *)
Fixpoint strictly_sorted (l : list Object) : bool :=
  match l with
  | [] => true
  | a :: rest =>
      match rest with
      | [] => true
      | b :: _ => Keys.lt (Key a) (Key b) && strictly_sorted rest
      end
  end.

(** The key [k] is in the listing [l]. *)
Definition present (k : string) (l : list Object) : bool :=
  existsb (fun d => (Key d =? k)%string) l.

(** The record [o] has no key in common with the listing [D]. *)
Definition absent (D : list Object) (o : Object) : bool := negb (present (Key o) D).

(** The value of [lastkey] after the records [l] were sent, starting from
    [lk]; the producer starts from [""]. *)
Definition last_key_from (lk : string) (l : list Object) : string :=
  last (map Key l) lk.

Definition last_key (l : list Object) : string := last_key_from "" l.

(** Every key is empty or strictly above the key just before it, the first
    one above [lastkey]. *)
Fixpoint ascending (lastkey : string) (l : list Object) : bool :=
  match l with
  | [] => true
  | o :: rest =>
      ((Key o =? "")%string || Keys.lt lastkey (Key o)) && ascending (Key o) rest
  end.

(** The records of the pages a sequence of listing requests was answered
    with, in order. *)
Definition listed (cs : list (string * (list Object + error))) : list Object :=
  flat_map (fun c => match snd c with inl objs => objs | inr _ => [] end) cs.

(** The failure marker a producer sends before it closes its channel. *)
Definition sentinel (e : Listing.stop) : chan :=
  match e with
  | Listing.ListFailed _ => [None]
  | _ => []
  end.

Definition zero : Stats := mkStats 0 0 0 0.

Module DiffInv.

(** What the destination cursor knows while the destination is still open:
    the records not yet received are [post], in order and not below the
    cursor, and every destination key is below [k], or is the cursor, or
    is still to come. *)
Definition open_ (D : list Object) (k dkey : string) (post : list Object) : Prop :=
  strictly_sorted post = true /\
  (forall x, In x post -> In x D) /\
  (forall x, In x post -> Keys.lt (Key x) dkey = false) /\
  (forall x, In x D -> Keys.lt (Key x) k = true \/ Key x = dkey \/ In x post) /\
  (dkey = "" \/ present dkey D = true).

(** Once the destination is exhausted every destination key is below [k]. *)
Definition closed (D : list Object) (k : string) : Prop :=
  forall x, In x D -> Keys.lt (Key x) k = true.

Definition inv (D : list Object) (k : string) (st : Diff.state) : Prop :=
  if Diff.hasMore st then
    exists post, Diff.dstkeys st = map Some post /\ open_ D k (Diff.dstkey st) post
  else closed D k.

End DiffInv.

(** What is enqueued, in the words of the specification: the source records
    whose keys are not present in the destination listing, in source order. *)
Definition claimed_todo (S D : list Object) : list Object :=
  filter (fun o => negb (present (Key o) D)) S.

Module Log.

(** How often a stretch of the log adds to each counter, and what it puts
    on the work queue. *)
Definition founds (l : list Diff.event) : nat :=
  List.length (filter (fun e => match e with Diff.AddFound => true | _ => false end) l).

Definition missings (l : list Diff.event) : nat :=
  List.length (filter (fun e => match e with Diff.AddMissing => true | _ => false end) l).

Definition enqueued (l : list Diff.event) : list Object :=
  flat_map (fun e => match e with Diff.Enqueue o => [o] | _ => [] end) l.

(** At every point of the log there were at least as many additions to
    [found] as to [missing]. *)
Definition balanced (l : list Diff.event) : Prop :=
  forall p q, l = p ++ q -> (missings p <= founds p)%nat.

End Log.

Definition uint64 (x : Z) : Prop := 0 <= x < 2 ^ 64.

Module ListingInv.

Definition call : Type := string * (list Object + error).

(** How the scan of a page ended, against what was left of the page. *)
Definition page_left (end_ lk : string) (sent : list Object) (e : Listing.page_end)
  (rest : list Object) : Prop :=
  match e with
  | Listing.PageDone lk' => rest = [] /\ lk' = last_key_from lk sent
  | Listing.PageBreak o =>
      exists rest', rest = o :: rest' /\ end_ <> "" /\ Keys.le end_ (Key o) = true /\
        ascending (last_key_from lk sent) [o] = true
  | Listing.PageFatal lk' o =>
      exists rest', rest = o :: rest' /\ lk' = last_key_from lk sent /\
        Key o <> "" /\ Keys.le (Key o) lk' = true
  end.

(** How the producer ended, against the last answer [resp] it got and the
    records [rest] of that answer it did not send. *)
Definition stop_left (end_ lk : string) (sent : list Object) (e : Listing.stop)
  (resp : list Object + error) (rest : list Object) : Prop :=
  match e with
  | Listing.Exhausted => resp = inl []
  | Listing.ReachedEnd o =>
      exists rest', rest = o :: rest' /\ end_ <> "" /\ Keys.le end_ (Key o) = true /\
        ascending (last_key_from lk sent) [o] = true
  | Listing.ListFailed e => resp = inr e
  | Listing.Fatal lk' o =>
      exists rest', rest = o :: rest' /\ lk' = last_key_from lk sent /\
        Key o <> "" /\ Keys.le (Key o) lk' = true
  | Listing.OutOfFuel => True
  end.

(** The shape of a run that started with [lastkey = lk] on the requests
    [cs]: every request but the last was answered with a non-empty page,
    all of it sent; of the last answer a part [a] was sent and [rest] was
    not. *)
Definition shape {S : Type} (end_ lk : string) (cs : list call) (r : Listing.run S)
  : Prop :=
  exists pre m resp a rest,
    cs = pre ++ [(m, resp)] /\
    listed [(m, resp)] = a ++ rest /\
    records (Listing.out r) = listed pre ++ a /\
    (forall c, In c pre -> exists o page, snd c = inl (o :: page)) /\
    stop_left end_ lk (records (Listing.out r)) (Listing.ended r) resp rest.

(** Every request after the first carries the key sent last as marker. *)
Definition markers (lk : string) (cs : list call) : Prop :=
  forall pre m resp post, cs = pre ++ (m, resp) :: post -> pre <> [] ->
    m = last_key_from lk (listed pre).

End ListingInv.

(** The order of a page against its request, in the words of the
    specification: the first key of the page is strictly greater than the
    marker of the request, an empty key being exempt. *)
Definition first_key_above_marker (c : ListingInv.call) : Prop :=
  forall o page, snd c = inl (o :: page) ->
    Key o = "" \/ Keys.lt (fst c) (Key o) = true.

(** ** Stores that honour ranged reads *)

Module Ranged.

(** Whether the byte at index [i] is in the range of a read at [off] of
    [limit] bytes; a negative [limit] reads to the end of the object. *)
Definition in_range (i off limit : Z) : bool :=
  (off <=? i) && ((limit <? 0) || (i <? off + limit)).

Fixpoint slice_at (i : Z) (content : bytes) (off limit : Z) : bytes :=
  match content with
  | [] => []
  | b :: rest =>
      if in_range i off limit then b :: slice_at (i + 1) rest off limit
      else slice_at (i + 1) rest off limit
  end.

Definition slice (content : bytes) (off limit : Z) : bytes :=
  slice_at 0 content off limit.

(** Modelled from the spec: the [Get] of the object store adapter, which is
    not part of this file.  [read(key, offset, length)] delivers the bytes
    of the object from [offset] on, [length] of them or, with [length = -1],
    all up to the end of the object; the read does not fail.  The store
    states in [stable] are those in which the object is [content]; reading
    does not leave them. *)
Definition serves {A : Type} (src : ObjectStorage A) (stable : A -> Prop)
  (key : string) (content : bytes) : Prop :=
  forall sa, stable sa -> forall off limit, exists sa',
    Get src sa key off limit = (inl (mkReader (slice content off limit) None), sa') /\
    stable sa'.

(** A store kept in memory: the objects by key, the latest [Put] first. *)
Definition lookup (s : list (string * bytes)) (key : string) : option bytes :=
  option_map snd (find (fun kv => (fst kv =? key)%string) s).

Definition memory : ObjectStorage (list (string * bytes)) :=
  mkStore _
    (fun s _ _ _ => (inl [], s))
    (fun s key off limit =>
       match lookup s key with
       | Some content => (inl (mkReader (slice content off limit) None), s)
       | None => (inr "no such key", s)
       end)
    (fun s key body => (None, (key, body) :: s))
    (fun s key =>
       match lookup s key with
       | Some _ => (None, s)
       | None => (Some "no such key", s)
       end).

End Ranged.

(** [a] is [b] with some elements left out, the order kept. *)
Inductive subseq {A : Type} : list A -> list A -> Prop :=
| subseq_nil : subseq [] []
| subseq_take (x : A) (a b : list A) : subseq a b -> subseq (x :: a) (x :: b)
| subseq_skip (x : A) (a b : list A) : subseq a b -> subseq a (x :: b).

(** The calls of [replicate] that write to the destination. *)
Definition is_put (o : op) : bool :=
  match o with DstPut _ _ => true | _ => false end.

(** * Properties *)

(** ** The order on keys *)

Module KeyFacts.

Import Keys.

Lemma compare_refl (a : string) : String.compare a a = Eq.
Proof.
  induction a as [|c a IH]; simpl; [reflexivity|].
  assert (Hc : Ascii.compare c c = Eq).
  { unfold Ascii.compare. apply N.compare_refl. }
  now rewrite Hc.
Qed.

Lemma lt_irrefl (a : string) : lt a a = false.
Proof. unfold lt, String.ltb. now rewrite compare_refl. Qed.

Lemma lt_spec (a b : string) : lt a b = true <-> String_as_OT.lt a b.
Proof.
  unfold lt, String.ltb. rewrite <- String_as_OT.cmp_lt.
  unfold String_as_OT.cmp. destruct (String.compare a b); split; congruence.
Qed.

Lemma lt_trans (a b c : string) : lt a b = true -> lt b c = true -> lt a c = true.
Proof.
  rewrite !lt_spec. apply String_as_OT.lt_trans.
Qed.

Lemma lt_asym (a b : string) : lt a b = true -> lt b a = false.
Proof.
  intros H. destruct (lt b a) eqn:E; [|reflexivity].
  pose proof (lt_trans _ _ _ H E) as Hc. now rewrite lt_irrefl in Hc.
Qed.

Lemma trichotomy (a b : string) : lt a b = true \/ a = b \/ lt b a = true.
Proof.
  unfold lt, String.ltb. rewrite (String.compare_antisym b a).
  destruct (String.compare a b) eqn:E; simpl; auto.
  right; left. now apply String.compare_eq_iff.
Qed.

Lemma le_lt (a b : string) : le a b = negb (lt b a).
Proof.
  unfold le, lt, String.leb, String.ltb. rewrite (String.compare_antisym b a).
  now destruct (String.compare a b).
Qed.

Lemma lt_empty_r (a : string) : lt a "" = false.
Proof. now destruct a. Qed.

Lemma lt_empty_l (a : string) : a <> "" -> lt "" a = true.
Proof. destruct a; [congruence | reflexivity]. Qed.

Lemma lt_neq (a b : string) : lt a b = true -> a <> b.
Proof. intros H ->. now rewrite lt_irrefl in H. Qed.

End KeyFacts.

(** ** doSync enqueues the source records absent from the destination *)

Section DiffFacts.

Import KeyFacts.

Lemma sorted_tail (a : Object) (l : list Object) :
  strictly_sorted (a :: l) = true -> strictly_sorted l = true.
Proof.
  simpl. destruct l as [|b l]; [reflexivity|].
  intros H. now apply andb_true_iff in H.
Qed.

Lemma sorted_above (a : Object) (l : list Object) :
  strictly_sorted (a :: l) = true ->
  forall x, In x l -> Keys.lt (Key a) (Key x) = true.
Proof.
  revert a. induction l as [|b l IH]; intros a Hs x Hin; [destruct Hin|].
  simpl in Hs. apply andb_true_iff in Hs as [Hab Hl].
  destruct Hin as [<-|Hin]; [exact Hab|].
  apply lt_trans with (Key b); [exact Hab|].
  now apply IH.
Qed.

Lemma present_spec (k : string) (l : list Object) :
  present k l = true <-> exists x, In x l /\ Key x = k.
Proof.
  unfold present. rewrite existsb_exists.
  split; intros [x [Hin Hk]]; exists x; split; auto; now apply String.eqb_eq.
Qed.

Lemma absent_spec (k : string) (l : list Object) :
  present k l = false <-> forall x, In x l -> Key x <> k.
Proof.
  split.
  - intros H x Hin Hk.
    assert (Hp : present k l = true) by (apply present_spec; eauto).
    congruence.
  - intros H. destruct (present k l) eqn:E; [|reflexivity].
    apply present_spec in E as [x [Hin Hk]]. now apply H in Hin.
Qed.

Variable D : list Object.

Lemma inv_raise (k k' : string) (st : Diff.state) :
  Keys.lt k k' = true -> DiffInv.inv D k st -> DiffInv.inv D k' st.
Proof.
  intros Hk. unfold DiffInv.inv. destruct (Diff.hasMore st).
  - intros [post [Hd [Hs [Hsub [Hlow [Hcov Hcur]]]]]].
    exists post. repeat split; auto.
    intros x Hx. destruct (Hcov x Hx) as [H|[H|H]]; auto.
    left. now apply lt_trans with k.
  - intros H x Hx. apply lt_trans with k; auto.
Qed.

(** The inner loop never meets a failure marker on a failure-free
    destination, and leaves the cursor at or above the source key unless
    the destination runs out. *)
Lemma advance_open (k : string) (post : list Object) :
  forall dkey, DiffInv.open_ D k dkey post ->
  exists dkey' more' dst',
    Diff.advance k dkey true (map Some post) = Diff.Next (dkey', more', dst') /\
    if more' then
      (exists post', dst' = map Some post' /\ DiffInv.open_ D k dkey' post') /\
      Keys.lt dkey' k = false
    else DiffInv.closed D k.
Proof.
  induction post as [|c post IH]; intros dkey (Hs & Hsub & Hlow & Hcov & Hcur).
  - simpl. destruct (Keys.lt dkey k) eqn:E.
    + exists dkey, false, []. split; [reflexivity|].
      intros x Hx. destruct (Hcov x Hx) as [H|[H|[]]]; [exact H|congruence].
    + exists dkey, true, []. split; [reflexivity|]. split; [|exact E].
      exists []. split; [reflexivity|]. repeat split; auto.
  - simpl. destruct (Keys.lt dkey k) eqn:E.
    + apply IH. repeat split.
      * now apply sorted_tail in Hs.
      * intros x Hx. apply Hsub. now right.
      * intros x Hx. apply lt_asym. now apply (sorted_above c post).
      * intros x Hx. destruct (Hcov x Hx) as [H|[H|[H|H]]]; auto.
        -- left. congruence.
        -- right; left. now subst.
      * right. apply present_spec. exists c. split; [|reflexivity].
        apply Hsub. now left.
    + exists dkey, true, (Some c :: map Some post). split; [reflexivity|].
      split; [|exact E].
      exists (c :: post). split; [reflexivity|]. repeat split; auto.
Qed.

(** One source record with a non-empty key is enqueued exactly when its key
    is not a destination key. *)
Lemma body_sound (st : Diff.state) (obj : Object) :
  Key obj <> "" -> DiffInv.inv D (Key obj) st ->
  exists st', Diff.body st obj = Diff.Next st' /\
    DiffInv.inv D (Key obj) st' /\
    Diff.todo st' = Diff.todo st ++ (if present (Key obj) D then [] else [obj]).
Proof.
  intros Hne Hinv. unfold DiffInv.inv in Hinv. unfold Diff.body.
  destruct (Diff.hasMore st) eqn:Hm.
  - destruct Hinv as [post [Hd Hopen]]. rewrite Hd.
    destruct (advance_open (Key obj) post _ Hopen) as (dkey' & more' & dst' & Ha & Hres).
    rewrite Ha. destruct more'.
    + destruct Hres as [[post' [Hd' Hopen']] Hge].
      destruct (Keys.lt (Key obj) dkey') eqn:Hlt; simpl.
      * eexists. split; [reflexivity|]. split.
        -- unfold DiffInv.inv; simpl. eauto.
        -- simpl. replace (present (Key obj) D) with false; [reflexivity|].
           symmetry. apply absent_spec. intros x Hx Hk.
           destruct Hopen' as (_ & _ & Hlow & Hcov & _).
           destruct (Hcov x Hx) as [H|[H|H]].
           ++ rewrite Hk, lt_irrefl in H. discriminate.
           ++ rewrite <- H, Hk, lt_irrefl in Hlt. discriminate.
           ++ apply Hlow in H. congruence.
      * eexists. split; [reflexivity|]. split.
        -- unfold DiffInv.inv; simpl. eauto.
        -- simpl. replace (present (Key obj) D) with true; [now rewrite app_nil_r|].
           symmetry. destruct Hopen' as (_ & _ & _ & _ & Hcur).
           destruct (trichotomy (Key obj) dkey') as [H|[H|H]]; try congruence.
           destruct Hcur as [Hc|Hc]; congruence.
    + simpl. rewrite orb_true_r.
      eexists. split; [reflexivity|]. split.
      * unfold DiffInv.inv; simpl. exact Hres.
      * simpl. replace (present (Key obj) D) with false; [reflexivity|].
        symmetry. apply absent_spec. intros x Hx Hk.
        apply Hres in Hx. rewrite Hk, lt_irrefl in Hx. discriminate.
  - destruct (Diff.dstkeys st) as [|d ds]; simpl; rewrite orb_true_r.
    all: eexists; (split; [reflexivity|]); split;
      [unfold DiffInv.inv; simpl; exact Hinv|].
    all: simpl; replace (present (Key obj) D) with false; [reflexivity|].
    all: symmetry; apply absent_spec; intros x Hx Hk;
      apply Hinv in Hx; rewrite Hk, lt_irrefl in Hx; discriminate.
Qed.

Lemma loop_sound (S : list Object) :
  forall st, strictly_sorted S = true ->
  (forall o, In o S -> Key o <> "") ->
  (forall o, hd_error S = Some o -> DiffInv.inv D (Key o) st) ->
  Diff.todo (fst (Diff.loop st (map Some S))) = Diff.todo st ++ filter (absent D) S /\
  snd (Diff.loop st (map Some S)) = [].
Proof.
  induction S as [|o S IH]; intros st Hs Hne Hinv.
  - simpl. now rewrite app_nil_r.
  - simpl.
    destruct (body_sound st o) as (st' & Hb & Hinv' & Htodo).
    { apply Hne. now left. }
    { now apply Hinv. }
    rewrite Hb.
    destruct (IH st') as [H1 H2].
    { now apply sorted_tail in Hs. }
    { intros x Hx. apply Hne. now right. }
    { intros x Hx. destruct S as [|y S]; [discriminate|]. injection Hx as ->.
      apply inv_raise with (Key o); [|exact Hinv'].
      apply (sorted_above o (x :: S)); [exact Hs|now left]. }
    rewrite H1, H2, Htodo. split; [|reflexivity].
    unfold absent at 2. destruct (present (Key o) D); simpl.
    + now rewrite app_nil_r.
    + now rewrite <- app_assoc.
Qed.

End DiffFacts.

Lemma advance_stay (k dkey : string) (more : bool) (dst : chan) :
  more && Keys.lt dkey k = false ->
  Diff.advance k dkey more dst = Diff.Next (dkey, more, dst).
Proof. intros H. destruct dst; simpl; now rewrite H. Qed.

Lemma inv_fresh (D : list Object) (k : string) (st : Diff.state) :
  strictly_sorted D = true ->
  Diff.hasMore st = true -> Diff.dstkey st = "" -> Diff.dstkeys st = map Some D ->
  DiffInv.inv D k st.
Proof.
  intros Hs Hm Hk Hd. unfold DiffInv.inv. rewrite Hm, Hk.
  exists D. split; [exact Hd|]. repeat split; auto.
  intros x _. apply KeyFacts.lt_empty_r.
Qed.

(** C1, as written, fails: a source record whose key is the empty string is
    never enqueued, although the destination listing is empty. *)
Lemma doSync_empty_key_counterexample :
  let S := [mkObject "" 7] in
  let D := @nil Object in
  strictly_sorted S = true /\ strictly_sorted D = true /\
  Diff.todo (fst (doSync zero (map Some S) (map Some D))) <> claimed_todo S D.
Proof. repeat split. discriminate. Qed.

(** C1 (amended): for strictly sorted, failure-free source and destination
    listings, doSync receives the whole source listing and enqueues, in
    source order, exactly the source records whose key is not the empty
    string and is not a key of the destination listing. *)
Theorem doSync_enqueues_absent (s : Stats) (S D : list Object) :
  strictly_sorted S = true -> strictly_sorted D = true ->
  Diff.todo (fst (doSync s (map Some S) (map Some D))) =
    filter (fun o => negb (Key o =? "")%string && negb (present (Key o) D)) S /\
  snd (doSync s (map Some S) (map Some D)) = [].
Proof.
  intros HS HD. unfold doSync.
  assert (Hfilter : forall l : list Object, (forall o, In o l -> Key o <> "") ->
            filter (absent D) l =
            filter (fun o => negb (Key o =? "")%string && negb (present (Key o) D)) l).
  { intros l Hl. apply filter_ext_in. intros o Ho. unfold absent.
    apply Hl in Ho. apply String.eqb_neq in Ho. now rewrite Ho. }
  destruct S as [|o S]; [now split|].
  assert (Htail : forall x, In x S -> Key x <> "").
  { intros x Hx Hk. pose proof (sorted_above o S HS x Hx) as H.
    rewrite Hk, KeyFacts.lt_empty_r in H. discriminate. }
  destruct (String.eqb_spec (Key o) "") as [Ho|Ho].
  - cbn [map Diff.loop]. unfold Diff.body.
    rewrite advance_stay by (cbn; rewrite Ho; apply KeyFacts.lt_irrefl).
    cbn [Diff.dstkey Diff.init]. rewrite Ho, KeyFacts.lt_irrefl.
    cbn [orb negb Diff.hasMore Diff.init].
    match goal with |- context [Diff.loop ?st _] =>
      destruct (loop_sound D S st) as [H1 H2] end.
    + now apply sorted_tail in HS.
    + exact Htail.
    + intros x _. now apply inv_fresh.
    + rewrite H1, H2. cbn [Diff.todo app filter]. rewrite Ho. cbn.
      split; [|reflexivity]. now apply Hfilter.
  - destruct (loop_sound D (o :: S) (Diff.init s (map Some D))) as [H1 H2].
    + exact HS.
    + intros x [<-|Hx]; auto.
    + intros x _. now apply inv_fresh.
    + rewrite H1, H2. cbn [Diff.todo Diff.init app]. split; [|reflexivity].
      apply Hfilter. intros x [<-|Hx]; auto.
Qed.

Lemma doSync_enqueues_absent_witness :
  let S := [mkObject "a" 100; mkObject "b" 100; mkObject "c" 100] in
  let D := [mkObject "b" 100] in
  strictly_sorted S = true /\ strictly_sorted D = true /\
  Diff.todo (fst (doSync zero (map Some S) (map Some D))) =
    [mkObject "a" 100; mkObject "c" 100].
Proof.
  intros S D. split; [reflexivity|]. split; [reflexivity|].
  rewrite (proj1 (doSync_enqueues_absent zero S D eq_refl eq_refl)).
  reflexivity.
Defined.

(** ** The counters of doSync *)

Section CounterFacts.

Import Log.

Lemma founds_app (a b : list Diff.event) : founds (a ++ b) = (founds a + founds b)%nat.
Proof. unfold founds. now rewrite filter_app, length_app. Qed.

Lemma missings_app (a b : list Diff.event) :
  missings (a ++ b) = (missings a + missings b)%nat.
Proof. unfold missings. now rewrite filter_app, length_app. Qed.

Lemma enqueued_app (a b : list Diff.event) : enqueued (a ++ b) = enqueued a ++ enqueued b.
Proof. unfold enqueued. now rewrite flat_map_app. Qed.

Lemma balanced_app (a b : list Diff.event) :
  balanced a -> balanced b -> balanced (a ++ b).
Proof.
  intros Ha Hb p q H. symmetry in H. apply app_eq_app in H as [r [[Hp Hq]|[Hp Hq]]].
  - subst p. rewrite missings_app, founds_app.
    pose proof (Ha a [] (eq_sym (app_nil_r a))).
    pose proof (Hb r q Hq). lia.
  - apply (Ha p r Hp).
Qed.

Lemma balanced_skip : balanced [Diff.AddFound].
Proof.
  intros p q H. destruct p as [|e p]; [cbn; lia|].
  injection H as <- H. destruct p; [cbn; lia|discriminate].
Qed.

Lemma balanced_enqueue (o : Object) :
  balanced [Diff.AddFound; Diff.Enqueue o; Diff.AddMissing].
Proof.
  intros p q H.
  destruct p as [|e1 p]; [cbn; lia|]. injection H as <- H.
  destruct p as [|e2 p]; [cbn; lia|]. injection H as <- H.
  destruct p as [|e3 p]; [cbn; lia|]. injection H as <- H.
  destruct p; [cbn; lia|discriminate].
Qed.

(** What one turn of the loop adds to the state. *)
Lemma body_log (st : Diff.state) (obj : Object) :
  let st' := Diff.after (Diff.body st obj) in
  exists l, Diff.log st' = Diff.log st ++ l /\ balanced l /\ founds l = 1%nat /\
    Diff.todo st' = Diff.todo st ++ enqueued l /\
    missings l = List.length (enqueued l) /\
    Diff.stats st' = Diff.replay (Diff.stats st) l.
Proof.
  unfold Diff.body.
  destruct (Diff.advance _ _ _ _) as [[[dkey more] dst]|[[dkey more] dst]].
  - destruct (Keys.lt (Key obj) dkey || negb more); cbn.
    + exists [Diff.AddFound; Diff.Enqueue obj; Diff.AddMissing].
      rewrite <- app_assoc. repeat split. apply balanced_enqueue.
    + exists [Diff.AddFound]. rewrite app_nil_r. repeat split. apply balanced_skip.
  - cbn. exists [Diff.AddFound]. rewrite app_nil_r. repeat split. apply balanced_skip.
Qed.

Lemma replay_app (s : Stats) (a b : list Diff.event) :
  Diff.replay s (a ++ b) = Diff.replay (Diff.replay s a) b.
Proof. unfold Diff.replay. apply fold_left_app. Qed.

Lemma loop_log (srckeys : chan) :
  forall st, exists got l,
    srckeys = got ++ snd (Diff.loop st srckeys) /\
    Diff.log (fst (Diff.loop st srckeys)) = Diff.log st ++ l /\
    balanced l /\
    founds l = List.length (records got) /\
    Diff.todo (fst (Diff.loop st srckeys)) = Diff.todo st ++ enqueued l /\
    missings l = List.length (enqueued l) /\
    Diff.stats (fst (Diff.loop st srckeys)) = Diff.replay (Diff.stats st) l.
Proof.
  induction srckeys as [|x rest IH]; intros st.
  - exists [], []. cbn. rewrite !app_nil_r. repeat split.
    intros p q H. destruct p; [cbn; lia|discriminate].
  - destruct x as [obj|]; cbn [Diff.loop].
    + pose proof (body_log st obj) as Hbody. cbn zeta in Hbody.
      destruct (Diff.body st obj) as [st'|st'] eqn:Hb; cbn [Diff.after] in Hbody;
        destruct Hbody as (l1 & Hl1 & Hb1 & Hf1 & Ht1 & Hm1 & Hs1).
      * destruct (IH st') as (got & l2 & Hgot & Hl2 & Hb2 & Hf2 & Ht2 & Hm2 & Hs2).
        exists (Some obj :: got), (l1 ++ l2). repeat split.
        -- cbn. now rewrite <- Hgot.
        -- now rewrite Hl2, Hl1, app_assoc.
        -- now apply balanced_app.
        -- rewrite founds_app, Hf1, Hf2. reflexivity.
        -- now rewrite Ht2, Ht1, enqueued_app, app_assoc.
        -- rewrite missings_app, enqueued_app, length_app. lia.
        -- now rewrite Hs2, Hs1, replay_app.
      * exists [Some obj], l1. cbn [fst snd app records flat_map List.length].
        repeat split; auto.
    + exists [None], []. cbn. rewrite !app_nil_r. repeat split.
      intros p q H. destruct p; [cbn; lia|discriminate].
Qed.

Lemma replay_counts (l : list Diff.event) :
  forall s, uint64 (found s) -> uint64 (missing s) ->
  found (Diff.replay s l) = (found s + Z.of_nat (founds l)) mod 2 ^ 64 /\
  missing (Diff.replay s l) = (missing s + Z.of_nat (missings l)) mod 2 ^ 64.
Proof.
  unfold uint64.
  induction l as [|e l IH]; intros s Hf Hm.
  - cbn. rewrite !Z.add_0_r, !Z.mod_small by lia. now split.
  - change (Diff.replay s (e :: l)) with (Diff.replay (Diff.replay1 s e) l).
    assert (Hr : forall x, 0 <= (x + 1) mod 2 ^ 64 < 2 ^ 64)
      by (intros; apply Z.mod_pos_bound; lia).
    destruct (IH (Diff.replay1 s e)) as [If Im].
    { destruct e; cbn; unfold uint64_add; auto. }
    { destruct e; cbn; unfold uint64_add; auto. }
    rewrite If, Im.
    destruct e; cbn [Diff.replay1 found missing add_found add_missing]; unfold uint64_add.
    + rewrite Zplus_mod_idemp_l. change (founds (Diff.AddFound :: l)) with (S (founds l)).
      change (missings (Diff.AddFound :: l)) with (missings l).
      split; f_equal; lia.
    + now split.
    + rewrite Zplus_mod_idemp_l.
      change (missings (Diff.AddMissing :: l)) with (S (missings l)).
      change (founds (Diff.AddMissing :: l)) with (founds l).
      split; f_equal; lia.
Qed.

Lemma records_length (c : chan) : (List.length (records c) <= List.length c)%nat.
Proof.
  unfold records. induction c as [|[o|] c IH]; simpl; lia.
Qed.

End CounterFacts.

(** C9: [missing] is incremented once per object enqueued and [found] once
    per source record received, a failure marker incrementing neither; so
    at every point of the run [missing] is at most [found], as long as it
    was so at the start and [found] does not wrap around. *)
Theorem doSync_counters (s : Stats) (srckeys dstkeys : chan) :
  uint64 (found s) -> uint64 (missing s) ->
  let st := fst (doSync s srckeys dstkeys) in
  let rest := snd (doSync s srckeys dstkeys) in
  exists got,
    srckeys = got ++ rest /\
    found (Diff.stats st) =
      (found s + Z.of_nat (List.length (records got))) mod 2 ^ 64 /\
    missing (Diff.stats st) =
      (missing s + Z.of_nat (List.length (Diff.todo st))) mod 2 ^ 64 /\
    Log.enqueued (Diff.log st) = Diff.todo st /\
    Diff.replay s (Diff.log st) = Diff.stats st /\
    (missing s <= found s ->
     found s + Z.of_nat (List.length srckeys) < 2 ^ 64 ->
     forall p q, Diff.log st = p ++ q ->
       missing (Diff.replay s p) <= found (Diff.replay s p)).
Proof.
  intros Hf Hm st rest. subst st rest. unfold doSync.
  destruct (loop_log srckeys (Diff.init s dstkeys))
    as (got & l & Hgot & Hlog & Hbal & Hfl & Htodo & Hml & Hstats).
  cbn [Diff.init Diff.log Diff.todo Diff.stats app] in Hlog, Htodo, Hstats.
  destruct (replay_counts l s Hf Hm) as [Rf Rm].
  exists got. repeat split.
  - exact Hgot.
  - now rewrite Hstats, Rf, Hfl.
  - now rewrite Hstats, Rm, Htodo, Hml.
  - now rewrite Hlog, Htodo.
  - now rewrite Hlog, Hstats.
  - intros Hle Hwrap p q Hpq. rewrite Hlog in Hpq.
    destruct (replay_counts p s Hf Hm) as [Pf Pm]. rewrite Pf, Pm.
    pose proof (Hbal p q Hpq) as Hb.
    assert (Hn : (Log.founds p <= List.length srckeys)%nat).
    { rewrite Hgot at 1. rewrite length_app.
      pose proof (records_length got).
      assert (Log.founds p <= Log.founds l)%nat by (rewrite Hpq, founds_app; lia).
      lia. }
    unfold uint64 in *. rewrite !Z.mod_small by lia. lia.
Qed.

Lemma doSync_counters_witness :
  let o := fun k => Some (mkObject k 100) in
  let st := fst (doSync zero [o "a"; o "b"; None; o "c"] [o "b"]) in
  uint64 (found zero) /\ uint64 (missing zero) /\
  found (Diff.stats st) = 2 /\ missing (Diff.stats st) = 1 /\
  forall p q, Diff.log st = p ++ q ->
    missing (Diff.replay zero p) <= found (Diff.replay zero p).
Proof.
  intros o st.
  assert (U : uint64 0) by (unfold uint64; lia).
  destruct (doSync_counters zero [o "a"; o "b"; None; o "c"] [o "b"] U U)
    as (got & Hgot & Hf & Hm & _ & _ & Hinv).
  split; [exact U|]. split; [exact U|].
  split; [reflexivity|]. split; [reflexivity|].
  apply Hinv; cbn; lia.
Defined.

(** ** An empty source key under the initial cursor *)

(** C10: a source record with the empty key, received while the destination
    cursor is still the empty string and the destination is not known to be
    exhausted, is counted in [found], receives nothing from the destination
    and is not enqueued, whatever the destination listing holds. *)
Theorem doSync_empty_key_skipped (st : Diff.state) (obj : Object) :
  Key obj = "" -> Diff.dstkey st = "" -> Diff.hasMore st = true ->
  Diff.body st obj =
    Diff.Next (Diff.mkState "" true (Diff.dstkeys st) (Diff.todo st)
                 (add_found (Diff.stats st)) (Diff.log st ++ [Diff.AddFound])).
Proof.
  intros Hk Hd Hm. unfold Diff.body.
  rewrite advance_stay; rewrite Hk, Hd, Hm; reflexivity.
Qed.

Lemma doSync_empty_key_skipped_witness :
  let st := Diff.init zero [Some (mkObject "" 5); Some (mkObject "a" 1)] in
  Diff.body st (mkObject "" 3) =
    Diff.Next (Diff.mkState "" true [Some (mkObject "" 5); Some (mkObject "a" 1)] []
                 (mkStats 1 0 0 0) [Diff.AddFound]).
Proof.
  intros st.
  exact (doSync_empty_key_skipped st (mkObject "" 3) eq_refl eq_refl eq_refl).
Defined.

(** ** The listing stream *)

Section ListingFacts.

Import KeyFacts ListingInv.

Lemma last_key_from_cons (lk : string) (o : Object) (l : list Object) :
  last_key_from lk (o :: l) = last_key_from (Key o) l.
Proof.
  unfold last_key_from. cbn [map]. revert o. generalize lk.
  induction l as [|x l IH]; intros lk0 o; [reflexivity|].
  cbn [map]. change (last (Key o :: Key x :: map Key l) lk0)
    with (last (Key x :: map Key l) lk0).
  rewrite (IH lk0 x). symmetry. apply (IH (Key o) x).
Qed.

Lemma last_key_from_app (lk : string) (a b : list Object) :
  last_key_from lk (a ++ b) = last_key_from (last_key_from lk a) b.
Proof.
  revert lk. induction a as [|o a IH]; intros lk; [reflexivity|].
  cbn [app]. now rewrite !last_key_from_cons.
Qed.

Lemma ascending_app (lk : string) (a b : list Object) :
  ascending lk (a ++ b) = ascending lk a && ascending (last_key_from lk a) b.
Proof.
  revert lk. induction a as [|o a IH]; intros lk; [reflexivity|].
  cbn [app ascending]. now rewrite IH, last_key_from_cons, andb_assoc.
Qed.

Lemma scan_page_shape (end_ : string) (objs : list Object) :
  forall lk, exists rest,
    objs = fst (Listing.scan_page end_ objs lk) ++ rest /\
    page_left end_ lk (fst (Listing.scan_page end_ objs lk))
      (snd (Listing.scan_page end_ objs lk)) rest /\
    ascending lk (fst (Listing.scan_page end_ objs lk)) = true /\
    (end_ <> "" -> forall o, In o (fst (Listing.scan_page end_ objs lk)) ->
       Keys.lt (Key o) end_ = true).
Proof.
  induction objs as [|obj objs IH]; intros lk.
  - exists []. cbn. repeat split; auto.
  - cbn [Listing.scan_page].
    destruct (negb (Key obj =? "")%string && Keys.le (Key obj) lk) eqn:Hf.
    + exists (obj :: objs). cbn [fst snd app].
      split; [reflexivity|]. split; [|split; [reflexivity|intros _ o []]].
      exists objs. apply andb_true_iff in Hf as [Hne Hle].
      apply negb_true_iff, String.eqb_neq in Hne. repeat split; auto.
    + destruct (negb (end_ =? "")%string && Keys.le end_ (Key obj)) eqn:He.
      * exists (obj :: objs). cbn [fst snd app].
        split; [reflexivity|]. split; [|split; [reflexivity|intros _ o []]].
        exists objs. apply andb_true_iff in He as [Hne Hle].
        apply negb_true_iff, String.eqb_neq in Hne.
        split; [reflexivity|]. split; [exact Hne|]. split; [exact Hle|].
        cbn [ascending last_key_from map last]. rewrite andb_true_r. rewrite le_lt in Hf.
        destruct (Key obj =? "")%string; cbn in *; [reflexivity|].
        now apply negb_false_iff in Hf.
      * destruct (IH (Key obj)) as (rest & Hobjs & Hleft & Hasc & Hend).
        destruct (Listing.scan_page end_ objs (Key obj)) as [sent e].
        cbn [fst snd] in *. exists rest.
        split; [|split; [|split]].
        -- cbn [app]. rewrite <- Hobjs. reflexivity.
        -- destruct e; unfold page_left in *; rewrite last_key_from_cons; exact Hleft.
        -- cbn [ascending]. rewrite Hasc, andb_true_r. rewrite le_lt in Hf.
           destruct (Key obj =? "")%string; cbn in *; [reflexivity|].
           now apply negb_false_iff in Hf.
        -- intros Hne o [<-|Ho]; [|now apply Hend].
           apply String.eqb_neq in Hne. rewrite Hne, le_lt in He. cbn in He.
           now apply negb_false_iff in He.
Qed.

Lemma records_some (l : list Object) : records (map Some l) = l.
Proof. unfold records. induction l as [|o l IH]; cbn; congruence. Qed.

Lemma records_app (a b : chan) : records (a ++ b) = records a ++ records b.
Proof. unfold records. apply flat_map_app. Qed.

Lemma listed_app (a b : list call) : listed (a ++ b) = listed a ++ listed b.
Proof. unfold listed. apply flat_map_app. Qed.

Lemma listed_page (m : string) (objs : list Object) (cs : list call) :
  listed ((m, inl objs) :: cs) = objs ++ listed cs.
Proof. reflexivity. Qed.

Variable St : Type.
Variable store : ObjectStorage St.
Variable end_ : string.

Ltac splits := repeat match goal with |- _ /\ _ => split end.

Lemma markers_single (lk : string) (c : call) : markers lk [c].
Proof.
  intros pre m resp post H Hpre. destruct pre as [|c' pre]; [congruence|].
  destruct pre; discriminate.
Qed.

(** A run that made no further request. *)
Lemma one_page_shape (st : St) (m0 lk : string) (objs sent rest : list Object)
  (e : Listing.stop) :
  objs = sent ++ rest ->
  stop_left end_ lk sent e (inl objs) rest ->
  sentinel e = [] ->
  ascending lk sent = true ->
  (end_ <> "" -> forall o, In o sent -> Keys.lt (Key o) end_ = true) ->
  let r := Listing.mkRun (map Some sent) [] e st in
  shape end_ lk ((m0, inl objs) :: Listing.calls r) r /\
  markers lk ((m0, inl objs) :: Listing.calls r) /\
  ascending lk (records (Listing.out r)) = true /\
  Listing.out r = map Some (records (Listing.out r)) ++ sentinel (Listing.ended r) /\
  (end_ <> "" -> forall o, In o (records (Listing.out r)) -> Keys.lt (Key o) end_ = true).
Proof.
  intros Hobjs Hstop Hsent Hasc Hend r. subst r. unfold shape.
  cbn [Listing.out Listing.ended Listing.calls].
  rewrite records_some, Hsent, app_nil_r. splits.
  - exists [], m0, (inl objs), sent, rest. splits.
    + reflexivity.
    + cbn. now rewrite app_nil_r.
    + reflexivity.
    + intros c [].
    + exact Hstop.
  - apply markers_single.
  - exact Hasc.
  - reflexivity.
  - exact Hend.
Qed.

Lemma pages_shape (fuel : nat) :
  forall (st : St) (objs : list Object) (lk m0 : string),
  let r := Listing.pages fuel store st end_ objs lk in
  shape end_ lk ((m0, inl objs) :: Listing.calls r) r /\
  markers lk ((m0, inl objs) :: Listing.calls r) /\
  ascending lk (records (Listing.out r)) = true /\
  Listing.out r = map Some (records (Listing.out r)) ++ sentinel (Listing.ended r) /\
  (end_ <> "" -> forall o, In o (records (Listing.out r)) -> Keys.lt (Key o) end_ = true).
Proof.
  assert (Hnil : forall (st : St) m0 lk,
    let r := Listing.mkRun [] [] Listing.Exhausted st in
    shape end_ lk ((m0, inl []) :: Listing.calls r) r /\
    markers lk ((m0, inl []) :: Listing.calls r) /\
    ascending lk (records (Listing.out r)) = true /\
    Listing.out r = map Some (records (Listing.out r)) ++ sentinel (Listing.ended r) /\
    (end_ <> "" -> forall o, In o (records (Listing.out r)) -> Keys.lt (Key o) end_ = true)).
  { intros st m0 lk.
    apply (one_page_shape st m0 lk [] [] [] Listing.Exhausted); auto; reflexivity. }
  induction fuel as [|fuel IH]; intros st objs lk m0.
  - destruct objs as [|o objs]; cbn [Listing.pages]; [apply Hnil|].
    apply (one_page_shape st m0 lk (o :: objs) [] (o :: objs)); cbn; auto.
  - destruct objs as [|o objs]; [apply Hnil|].
    cbn [Listing.pages]. set (page := o :: objs).
    destruct (scan_page_shape end_ page lk) as (rest & Hpage & Hleft & Hasc & Hend).
    destruct (Listing.scan_page end_ page lk) as [sent e]. cbn [fst snd] in *.
    destruct e as [lk'|ob|lk' ob]; cbn [page_left] in Hleft.
    + destruct Hleft as [-> ->]. rewrite app_nil_r in Hpage.
      destruct (List store st "" (last_key_from lk sent) MaxResults) as [[objs'|e] st'].
      * specialize (IH st' objs' (last_key_from lk sent) (last_key_from lk sent)).
        cbn zeta in IH. set (r' := Listing.pages fuel store st' end_ objs' _) in *.
        destruct IH as (Hshape & Hmark & Hasc' & Hout & Hend').
        unfold shape in *.
        cbn [Listing.emit Listing.called Listing.out Listing.calls Listing.ended].
        rewrite records_app, records_some.
        splits.
        -- destruct Hshape as (pre & m & resp & a & rest & Hcs & Hlast & Hrec & Hpre & Hstop).
           exists ((m0, inl page) :: pre), m, resp, a, rest. splits.
           ++ cbn [app]. now rewrite <- Hcs.
           ++ exact Hlast.
           ++ rewrite listed_page, Hrec, <- Hpage. now rewrite app_assoc.
           ++ intros c [<-|Hc]; [exists o, objs; reflexivity|now apply Hpre].
           ++ destruct (Listing.ended r'); cbn [stop_left] in *; auto.
              ** destruct Hstop as (rest' & H1 & H2 & H3 & H4).
                 exists rest'. rewrite last_key_from_app. auto.
              ** destruct Hstop as (rest' & H1 & H2 & H3).
                 exists rest'. rewrite last_key_from_app. auto.
        -- intros pre m resp post H Hpre.
           destruct pre as [|c pre]; [congruence|]. injection H as <- H.
           destruct pre as [|c pre].
           ++ injection H as <- _ _. cbn. now rewrite app_nil_r, <- Hpage.
           ++ rewrite (Hmark (c :: pre) m resp post H) by discriminate.
              rewrite (listed_page m0 page), Hpage. symmetry. apply last_key_from_app.
        -- now rewrite ascending_app, Hasc, Hasc'.
        -- rewrite Hout at 1. now rewrite map_app, app_assoc.
        -- intros Hne x Hx. apply in_app_or in Hx as [Hx|Hx]; auto.
      * unfold shape.
        cbn [Listing.emit Listing.out Listing.calls Listing.ended].
        rewrite records_app, records_some. cbn [records flat_map sentinel].
        rewrite !app_nil_r. splits.
        -- exists [(m0, inl page)], (last_key_from lk sent), (inr e), [], []. splits.
           ++ reflexivity.
           ++ reflexivity.
           ++ cbn. now rewrite !app_nil_r.
           ++ intros c [<-|[]]. now exists o, objs.
           ++ reflexivity.
        -- intros pre m resp post H Hpre.
           destruct pre as [|c pre]; [congruence|]. injection H as <- H.
           destruct pre as [|c pre]; [|destruct pre; discriminate].
           injection H as <- _ _. cbn. now rewrite app_nil_r, <- Hpage.
        -- exact Hasc.
        -- reflexivity.
        -- exact Hend.
    + apply (one_page_shape st m0 lk page sent rest); auto.
    + apply (one_page_shape st m0 lk page sent rest); auto.
Qed.

Lemma Iterate_shape (fuel : nat) (st : St) (marker : string) (r : Listing.run St) :
  Iterate fuel store st marker end_ = inl r ->
  (exists first cs, Listing.calls r = (marker, inl first) :: cs) /\
  shape end_ "" (Listing.calls r) r /\
  markers "" (Listing.calls r) /\
  ascending "" (records (Listing.out r)) = true /\
  Listing.out r = map Some (records (Listing.out r)) ++ sentinel (Listing.ended r) /\
  (end_ <> "" -> forall o, In o (records (Listing.out r)) -> Keys.lt (Key o) end_ = true).
Proof.
  unfold Iterate.
  destruct (List store st "" marker MaxResults) as [[objs|e] st']; [|discriminate].
  intros H. injection H as <-.
  split; [eexists _, _; reflexivity|].
  apply (pages_shape fuel st' objs "" marker).
Qed.

Lemma in_records (o : Object) (c : chan) : In (Some o) c <-> In o (records c).
Proof.
  unfold records. rewrite in_flat_map. split.
  - intros H. exists (Some o). split; [exact H|now left].
  - intros [[x|] [Hx Ho]]; [|destruct Ho].
    destruct Ho as [->|[]]. exact Hx.
Qed.

Lemma ascending_head (lk : string) (o : Object) (l : list Object) :
  ascending lk (o :: l) = true -> Key o = "" \/ Keys.lt lk (Key o) = true.
Proof.
  cbn [ascending]. intros H. apply andb_true_iff in H as [H _].
  apply orb_true_iff in H as [H|H]; [left; now apply String.eqb_eq|now right].
Qed.

Lemma offender_not_ascending (lk : string) (o : Object) :
  Key o <> "" -> Keys.le (Key o) lk = true -> ascending lk [o] = false.
Proof.
  intros Hne Hle. cbn [ascending]. apply String.eqb_neq in Hne. rewrite Hne.
  rewrite le_lt in Hle. apply negb_true_iff in Hle. now rewrite Hle.
Qed.

(** The first key of a page requested after the first. *)
Lemma page_first_key (lk : string) (cs : list call) (r : Listing.run St)
  (pre : list call) (m : string) (o : Object) (page : list Object) (post : list call) :
  shape end_ lk cs r -> ascending lk (records (Listing.out r)) = true ->
  cs = pre ++ (m, inl (o :: page)) :: post ->
  m = last_key_from lk (listed pre) ->
  Listing.ended r = Listing.Fatal m o \/ Listing.ended r = Listing.OutOfFuel \/
  Key o = "" \/ Keys.lt m (Key o) = true.
Proof.
  intros (pre' & m' & resp' & a & rest & Hcs & Hlast & Hrec & _ & Hstop) Hasc Hsplit Hm.
  assert (Hsent : forall tl, records (Listing.out r) = listed pre ++ o :: tl ->
            Key o = "" \/ Keys.lt m (Key o) = true).
  { intros tl Htl. rewrite Htl, ascending_app in Hasc.
    apply andb_true_iff in Hasc as [_ Hasc]. rewrite <- Hm in Hasc.
    now apply ascending_head in Hasc. }
  rewrite Hcs in Hsplit.
  destruct post as [|c post].
  - apply app_inj_tail in Hsplit as [-> Hc]. injection Hc as -> ->.
    cbn in Hlast. rewrite app_nil_r in Hlast.
    destruct a as [|o' a].
    + cbn in Hlast. subst rest. rewrite app_nil_r in Hrec. rewrite Hrec in Hstop.
      destruct (Listing.ended r) as [|ob|e|lk' ob|]; cbn [stop_left] in Hstop.
      * discriminate.
      * destruct Hstop as (rest' & H1 & _ & _ & H4). injection H1 as <- _.
        rewrite <- Hm in H4. right; right. now apply ascending_head in H4.
      * discriminate.
      * destruct Hstop as (rest' & H1 & H2 & _). injection H1 as <- _.
        left. now rewrite H2, <- Hm.
      * now right; left.
    + injection Hlast as <- _. right; right. now apply (Hsent a).
  - assert (Hpre' : pre' = pre ++ (m, inl (o :: page)) :: removelast (c :: post)).
    { rewrite (app_removelast_last (m, inl []) (l := c :: post)) in Hsplit by discriminate.
      change (pre ++ (m, inl (o :: page)) :: ?x ++ ?y)
        with (pre ++ ((m, inl (o :: page)) :: x) ++ y) in Hsplit.
      rewrite app_assoc in Hsplit. now apply app_inj_tail in Hsplit as [-> _]. }
    right; right. apply (Hsent (page ++ listed (removelast (c :: post)) ++ a)).
    rewrite Hrec, Hpre', listed_app, listed_page, <- !app_assoc. reflexivity.
Qed.

End ListingFacts.

(** C2, as written, fails: Iterate compares the first page with the empty
    string, not with the marker it was called with.  Asked for the keys
    after "m", a store that answers with the key "a" is not caught: the
    record is sent and the stream ends normally. *)
Lemma Iterate_first_marker_counterexample :
  let a := mkObject "a" 1 in
  exists r, Iterate 2 listing_only [inl [a]; inl []] "m" "" = inl r /\
    Listing.calls r = [("m", inl [a]); ("a", inl [])] /\
    Listing.out r = [Some a] /\
    Listing.ended r = Listing.Exhausted /\
    ~ first_key_above_marker ("m", inl [a]).
Proof.
  intros a. eexists. split; [reflexivity|]. repeat split.
  intros H. destruct (H a [] eq_refl) as [H'|H']; discriminate.
Qed.

(** C2 (amended): in every listing stream produced by Iterate each key sent
    is empty or strictly greater than the key sent just before it, the
    first one being compared with the empty string and not with the
    caller's marker; every page after the first is requested with the key
    sent last as marker, so its first key is empty or strictly greater than
    that marker; Iterate aborts fatally exactly at the first record that
    fails this check, before sending it. *)
Theorem Iterate_keys_ascending {St : Type} (fuel : nat) (store : ObjectStorage St)
  (st : St) (marker end_ : string) (r : Listing.run St) :
  Iterate fuel store st marker end_ = inl r ->
  ascending "" (records (Listing.out r)) = true /\
  (forall pre m resp post, Listing.calls r = pre ++ (m, resp) :: post -> pre <> [] ->
     m = last_key (listed pre) /\
     (Listing.ended r = Listing.OutOfFuel \/
      (exists o page, resp = inl (o :: page) /\ Listing.ended r = Listing.Fatal m o) \/
      first_key_above_marker (m, resp))) /\
  (forall lk o, Listing.ended r = Listing.Fatal lk o ->
     exists rest, listed (Listing.calls r) = records (Listing.out r) ++ o :: rest /\
       lk = last_key (records (Listing.out r)) /\
       Key o <> "" /\ Keys.le (Key o) lk = true) /\
  (forall o rest, listed (Listing.calls r) = records (Listing.out r) ++ o :: rest ->
     Key o <> "" -> Keys.le (Key o) (last_key (records (Listing.out r))) = true ->
     Listing.ended r = Listing.Fatal (last_key (records (Listing.out r))) o \/
     Listing.ended r = Listing.OutOfFuel).
Proof.
  intros HI.
  destruct (Iterate_shape _ store end_ fuel st marker r HI)
    as (_ & Hshape & Hmark & Hasc & _ & _).
  split; [exact Hasc|]. split; [|split].
  - intros pre m resp post Hcs Hpre.
    pose proof (Hmark pre m resp post Hcs Hpre) as Hm. split; [exact Hm|].
    destruct resp as [[|o page]|e].
    + right; right. intros o page H. discriminate.
    + destruct (page_first_key _ end_ "" _ r pre m o page post Hshape Hasc Hcs Hm)
        as [H|[H|H]].
      * right; left. now exists o, page.
      * now left.
      * right; right. intros o' page' E. injection E as <- <-. exact H.
    + right; right. intros o page H. discriminate.
  - intros lk o He.
    destruct Hshape as (pre & m & resp & a & rest & Hcs & Hlast & Hrec & _ & Hstop).
    rewrite He in Hstop. cbn in Hstop. destruct Hstop as (rest' & -> & H2 & H3 & H4).
    exists rest'. repeat split; auto.
    rewrite Hcs, listed_app, Hlast, Hrec, <- app_assoc. reflexivity.
  - intros o rest0 Hl Hne Hle.
    destruct Hshape as (pre & m & resp & a & rest & Hcs & Hlast & Hrec & _ & Hstop).
    rewrite Hcs, listed_app, Hlast, Hrec, <- app_assoc in Hl.
    apply app_inv_head in Hl. apply app_inv_head in Hl.
    destruct (Listing.ended r) as [|ob|e|lk' ob|]; cbn [ListingInv.stop_left] in Hstop.
    + subst resp. cbn in Hlast. symmetry in Hlast.
      apply app_eq_nil in Hlast as [_ ->]. discriminate.
    + destruct Hstop as (rest' & H1 & _ & _ & H4). rewrite H1 in Hl.
      injection Hl as -> _. unfold last_key in Hle.
      rewrite (offender_not_ascending _ _ Hne Hle) in H4. discriminate.
    + subst resp. cbn in Hlast. symmetry in Hlast.
      apply app_eq_nil in Hlast as [_ ->]. discriminate.
    + destruct Hstop as (rest' & H1 & H2 & _). rewrite H1 in Hl.
      injection Hl as -> _. left. now rewrite H2.
    + now right.
Qed.

Lemma Iterate_keys_ascending_witness :
  let o := fun k => mkObject k 100 in
  exists r,
    Iterate 5 listing_only [inl [o "a"; o "b"]; inl [o "c"]; inl []] "" "" = inl r /\
    ascending "" (records (Listing.out r)) = true /\
    records (Listing.out r) = [o "a"; o "b"; o "c"].
Proof.
  intros o. eexists. split; [reflexivity|]. split; [|reflexivity].
  exact (proj1 (Iterate_keys_ascending 5 listing_only
                  [inl [o "a"; o "b"]; inl [o "c"]; inl []] "" "" _ eq_refl)).
Defined.

(** ** The end bound and the ways paging stops *)

(** C8: with a non-empty end key every record sent has a key strictly below
    it.  The requests made end with the one at which paging stopped: every
    earlier answer was a non-empty page sent in full; the last answer is an
    empty page, or an error, after which exactly one failure marker is sent
    and the channel is closed, or a page whose first record not sent has a
    key at or above the end key. *)
Theorem Iterate_end_bound {St : Type} (fuel : nat) (store : ObjectStorage St)
  (st : St) (marker end_ : string) (r : Listing.run St) :
  end_ <> "" ->
  Iterate fuel store st marker end_ = inl r ->
  (forall o, In (Some o) (Listing.out r) -> Keys.lt (Key o) end_ = true) /\
  exists pre m resp a rest,
    Listing.calls r = pre ++ [(m, resp)] /\
    (forall c, In c pre -> exists o page, snd c = inl (o :: page)) /\
    listed [(m, resp)] = a ++ rest /\
    Listing.out r = map Some (listed pre ++ a) ++ sentinel (Listing.ended r) /\
    match Listing.ended r with
    | Listing.Exhausted => resp = inl []
    | Listing.ReachedEnd o => exists rest', rest = o :: rest' /\ Keys.le end_ (Key o) = true
    | Listing.ListFailed e => resp = inr e
    | Listing.Fatal _ o => exists rest', rest = o :: rest'
    | Listing.OutOfFuel => True
    end.
Proof.
  intros Hne HI.
  destruct (Iterate_shape _ store end_ fuel st marker r HI)
    as (_ & Hshape & _ & _ & Hout & Hend).
  split.
  - intros o Ho. apply in_records in Ho. now apply Hend.
  - destruct Hshape as (pre & m & resp & a & rest & Hcs & Hlast & Hrec & Hpre & Hstop).
    exists pre, m, resp, a, rest. repeat split; auto.
    + now rewrite <- Hrec.
    + destruct (Listing.ended r); cbn [ListingInv.stop_left] in Hstop; auto.
      * destruct Hstop as (rest' & H1 & _ & H3 & _). now exists rest'.
      * destruct Hstop as (rest' & H1 & _). now exists rest'.
Qed.

Lemma Iterate_end_bound_witness :
  let o := fun k => mkObject k 100 in
  "d" <> "" /\
  exists r,
    Iterate 5 listing_only [inl [o "a"; o "b"]; inl [o "c"; o "d"]; inl []] "" "d"
      = inl r /\
    Listing.ended r = Listing.ReachedEnd (o "d") /\
    forall x, In (Some x) (Listing.out r) -> Keys.lt (Key x) "d" = true.
Proof.
  intros o. split; [discriminate|]. eexists. split; [reflexivity|].
  split; [reflexivity|].
  apply (Iterate_end_bound 5 listing_only
           [inl [o "a"; o "b"]; inl [o "c"; o "d"]; inl []] "" "d" _).
  - discriminate.
  - reflexivity.
Defined.

(** On a store that answers from a script the paging loop ends within one
    turn more than the script is long. *)
Lemma pages_scripted_ends (get : string -> Z -> Z -> Reader + error)
  (exists_ : string -> option error) (end_ : string)
  (script : list (list Object + error)) :
  forall fuel objs lk, (List.length script < fuel)%nat ->
  Listing.ended (Listing.pages fuel (scripted get exists_) script end_ objs lk)
    <> Listing.OutOfFuel.
Proof.
  induction script as [|resp script IH]; intros fuel objs lk Hfuel.
  - destruct objs as [|o objs]; [destruct fuel; discriminate|].
    destruct fuel as [|fuel]; [cbn in Hfuel; lia|].
    cbn [Listing.pages].
    destruct (Listing.scan_page end_ (o :: objs) lk) as [sent [lk'|ob|lk' ob]];
      try discriminate.
    cbn. destruct fuel; discriminate.
  - destruct objs as [|o objs]; [destruct fuel; discriminate|].
    destruct fuel as [|fuel]; [cbn in Hfuel; lia|].
    cbn [Listing.pages].
    destruct (Listing.scan_page end_ (o :: objs) lk) as [sent [lk'|ob|lk' ob]];
      try discriminate.
    cbn [List scripted]. destruct resp as [objs'|e]; [|discriminate].
    cbn [Listing.emit Listing.called Listing.ended].
    apply IH. cbn in Hfuel. lia.
Qed.

(** ** replicate *)

Section RangedFacts.

Import Ranged.

Lemma slice_at_past (content : bytes) :
  forall i n, n <= i -> slice_at i content 0 n = [] \/ n < 0.
Proof.
  induction content as [|b rest IH]; intros i n Hn; [now left|].
  destruct (Z.ltb_spec n 0) as [Hneg|Hpos]; [now right|]. left.
  cbn [slice_at]. unfold in_range.
  replace (n <? 0) with false by (symmetry; apply Z.ltb_ge; lia).
  replace (i <? 0 + n) with false by (symmetry; apply Z.ltb_ge; lia).
  rewrite andb_false_r. destruct (IH (i + 1) n) as [H|H]; [lia|exact H|lia].
Qed.

Lemma slice_at_tail (content : bytes) :
  forall i k, k <= i -> slice_at i content k (-1) = content.
Proof.
  induction content as [|b rest IH]; intros i k Hk; [reflexivity|].
  cbn [slice_at]. unfold in_range.
  replace (k <=? i) with true by (symmetry; apply Z.leb_le; lia).
  cbn. f_equal. apply IH. lia.
Qed.

(** The first [n] bytes and the rest, read from where the first read
    ended, make up the object. *)
Lemma slice_at_split (n : Z) (content : bytes) :
  0 <= n -> forall i, 0 <= i ->
  slice_at i content 0 n ++
  slice_at i content (i + Z.of_nat (List.length (slice_at i content 0 n))) (-1)
  = content.
Proof.
  intros Hn. induction content as [|b rest IH]; intros i Hi; [reflexivity|].
  destruct (Z.ltb_spec i n) as [Hlt|Hge].
  - assert (E : in_range i 0 n = true).
    { unfold in_range. apply andb_true_iff. split; [apply Z.leb_le; lia|].
      apply orb_true_iff. right. apply Z.ltb_lt. lia. }
    cbn [slice_at]. rewrite !E. cbn [app List.length].
    assert (E' : forall k, in_range i (i + Z.of_nat (S k)) (-1) = false).
    { intros k. unfold in_range. apply andb_false_iff. left. apply Z.leb_gt. lia. }
    rewrite E'. f_equal.
    replace (i + Z.of_nat (S (List.length (slice_at (i + 1) rest 0 n))))
      with (i + 1 + Z.of_nat (List.length (slice_at (i + 1) rest 0 n))) by lia.
    apply IH. lia.
  - destruct (slice_at_past (b :: rest) i n Hge) as [H|H]; [|lia].
    rewrite H. cbn [app List.length]. rewrite Z.add_0_r. apply slice_at_tail. lia.
Qed.

Lemma slice_split (n : Z) (content : bytes) :
  0 <= n ->
  slice content 0 n ++ slice content (Z.of_nat (List.length (slice content 0 n))) (-1)
  = content.
Proof. intros Hn. apply (slice_at_split n content Hn 0). lia. Qed.

Lemma slice_whole (content : bytes) : slice content 0 (-1) = content.
Proof. apply slice_at_tail. lia. Qed.

Lemma slice_at_length (n : Z) (content : bytes) :
  0 <= n -> forall i, 0 <= i ->
  Z.of_nat (List.length (slice_at i content 0 n))
  = Z.min (Z.max (n - i) 0) (Z.of_nat (List.length content)).
Proof.
  intros Hn. induction content as [|b rest IH]; intros i Hi; [cbn; lia|].
  destruct (Z.ltb_spec i n) as [Hlt|Hge].
  - assert (E : in_range i 0 n = true).
    { unfold in_range. apply andb_true_iff. split; [apply Z.leb_le; lia|].
      apply orb_true_iff. right. apply Z.ltb_lt. lia. }
    cbn [slice_at]. rewrite E. cbn [List.length].
    rewrite !Nat2Z.inj_succ, IH by lia. lia.
  - destruct (slice_at_past (b :: rest) i n Hge) as [H|H]; [|lia].
    rewrite H. cbn [List.length]. lia.
Qed.

Lemma slice_length (n : Z) (content : bytes) :
  0 <= n ->
  Z.of_nat (List.length (slice content 0 n)) = Z.min n (Z.of_nat (List.length content)).
Proof.
  intros Hn. unfold slice. rewrite (slice_at_length n content Hn 0) by lia. lia.
Qed.

End RangedFacts.

Lemma maxBlock_value : maxBlock = 10485760.
Proof. reflexivity. Qed.

(** C4: an object of at most [maxBlock] bytes is replicated with one read
    of the whole object and one write of exactly the bytes read; no
    temporary file is made. *)
Theorem replicate_small {A B : Type} (src : ObjectStorage A) (dst : ObjectStorage B)
  (d : Disk) (stable : A -> Prop) (sa : A) (sb : B) (obj : Object) (content : bytes) :
  Size obj <= maxBlock ->
  Ranged.serves src stable (Key obj) content -> stable sa ->
  exists sa',
    replicate src dst d sa sb obj =
      mkOutcome (fst (Put dst sb (Key obj) content))
        [SrcGet (Key obj) 0 (-1); DstPut (Key obj) content]
        sa' (snd (Put dst sb (Key obj) content)).
Proof.
  intros Hsize Hsrc Hsa. unfold replicate.
  replace (Size obj >? maxBlock) with false by (symmetry; rewrite Z.gtb_ltb; apply Z.ltb_ge; lia).
  destruct (Hsrc sa Hsa 0 (-1)) as [sa' [HG _]]. cbv zeta. rewrite HG, slice_whole.
  exists sa'. cbn. now destruct (Put dst sb (Key obj) content).
Qed.

Lemma memory_serves (key : string) (content : bytes) :
  Ranged.serves Ranged.memory (fun s => Ranged.lookup s key = Some content) key content.
Proof.
  intros sa Hsa off limit. exists sa. cbn. now rewrite Hsa.
Qed.

Lemma replicate_small_witness :
  let content := [Byte.x68; Byte.x69] in
  let obj := mkObject "k" 2 in
  Size obj <= maxBlock /\
  exists sa',
    replicate Ranged.memory Ranged.memory healthy [("k", content)] [] obj =
      mkOutcome None [SrcGet "k" 0 (-1); DstPut "k" content] sa' [("k", content)].
Proof.
  intros content obj.
  assert (Hsize : Size obj <= maxBlock) by (rewrite maxBlock_value; cbn; lia).
  split; [exact Hsize|].
  exact (replicate_small Ranged.memory Ranged.memory healthy _ [("k", content)] [] obj
           content Hsize (memory_serves "k" content) eq_refl).
Defined.

(** C3: an object of more than [maxBlock] bytes is read in two requests,
    the leading [maxBlock] bytes into memory and the rest from where the
    first read ended to the end; the temporary file is removed right after
    it is made, and one write hands the destination the bytes of the
    object, all of them and in order, the byte at the spill offset
    included. *)
Theorem replicate_large {A B : Type} (src : ObjectStorage A) (dst : ObjectStorage B)
  (stable : A -> Prop) (sa : A) (sb : B) (obj : Object) (content : bytes) :
  maxBlock < Size obj ->
  Ranged.serves src stable (Key obj) content -> stable sa ->
  let key := Key obj in
  let head := Ranged.slice content 0 maxBlock in
  let off := Z.min maxBlock (Z.of_nat (List.length content)) in
  let tail := Ranged.slice content off (-1) in
  Z.of_nat (List.length head) <= maxBlock /\
  head ++ tail = content /\
  exists sa',
    replicate src dst healthy sa sb obj =
      mkOutcome (fst (Put dst sb key content))
        [SrcGet key 0 maxBlock; TempFile; Remove; FileWrite head;
         SrcGet key off (-1); FileCopy tail; FileSeek; DstPut key content; FileClose]
        sa' (snd (Put dst sb key content)).
Proof.
  intros Hsize Hsrc Hsa key head off tail.
  assert (Hmax : 0 <= maxBlock) by (rewrite maxBlock_value; lia).
  assert (Hoff : Z.of_nat (List.length head) = off) by (apply slice_length, Hmax).
  assert (Hcat : head ++ tail = content).
  { subst tail. rewrite <- Hoff. apply slice_split, Hmax. }
  split; [lia|]. split; [exact Hcat|].
  unfold replicate.
  replace (Size obj >? maxBlock) with true by (symmetry; rewrite Z.gtb_ltb; apply Z.ltb_lt; lia).
  destruct (Hsrc sa Hsa 0 maxBlock) as [sa1 [HG1 Hsa1]].
  destruct (Hsrc sa1 Hsa1 off (-1)) as [sa2 [HG2 _]].
  cbv zeta. rewrite HG1. cbn [delivered broke].
  replace (maxBlock =? -1) with false by (rewrite maxBlock_value; reflexivity).
  cbn [tempfile_err write_err healthy]. fold head. rewrite Hoff, HG2.
  cbn [io_copy broke delivered copy_err seek_err healthy]. fold tail. rewrite Hcat.
  exists sa2. subst key. now destruct (Put dst sb (Key obj) content).
Qed.

Lemma replicate_large_witness :
  let content := [Byte.x68; Byte.x69; Byte.x21] in
  let obj := mkObject "k" (maxBlock + 1) in
  maxBlock < Size obj /\
  exists sa' t,
    replicate Ranged.memory Ranged.memory healthy [("k", content)] [] obj =
      mkOutcome None t sa' [("k", content)].
Proof.
  intros content obj.
  assert (Hsize : maxBlock < Size obj) by (cbn; lia).
  split; [exact Hsize|].
  destruct (replicate_large Ranged.memory Ranged.memory _ [("k", content)] [] obj
              content Hsize (memory_serves "k" content) eq_refl)
    as (_ & _ & sa' & H).
  exists sa'. eexists. exact H.
Defined.

(** C5: when the first read of the object fails, replicate asks the source
    whether the key exists.  If that check reports an error the object is
    gone: replicate answers success, and the worker counts the object as
    copied, not as failed.  If the check reports the key, replicate
    answers the error of the read. *)
Theorem replicate_read_failure {A B : Type} (src : ObjectStorage A)
  (dst : ObjectStorage B) (d : Disk) (sa sa1 sa2 : A) (sb : B) (obj : Object)
  (e : error) (gone : option error) (s : Stats) :
  let firstBlock := if Size obj >? maxBlock then maxBlock else -1 in
  Get src sa (Key obj) 0 firstBlock = (inr e, sa1) ->
  Exists src sa1 (Key obj) = (gone, sa2) ->
  let o := replicate src dst d sa sb obj in
  trace o = [SrcGet (Key obj) 0 firstBlock; SrcExists (Key obj)] /\
  dst_after o = sb /\
  match gone with
  | Some _ => result o = None /\ account s (result o) = add_copied s /\
              failed (account s (result o)) = failed s
  | None => result o = Some e /\ account s (result o) = add_failed s
  end.
Proof.
  intros firstBlock HG HE o. subst o firstBlock. unfold replicate. cbv zeta.
  rewrite HG, HE. destruct gone; cbn; auto.
Qed.

Lemma replicate_read_failure_witness :
  let src := scripted (fun _ _ _ => inr "connection reset") (fun _ => Some "not found") in
  let o := replicate src listing_only healthy [] [] (mkObject "k" 5) in
  result o = None /\ failed (account zero (result o)) = 0.
Proof.
  intros src o.
  destruct (replicate_read_failure src listing_only healthy [] [] [] []
              (mkObject "k" 5) "connection reset" (Some "not found") zero
              eq_refl eq_refl) as (_ & _ & Hres & _ & Hfailed).
  split; [exact Hres|exact Hfailed].
Defined.

(** ** What Sync returns *)

(** C6: Sync returns an error exactly when the first listing request to the
    source or to the destination fails.  When both are answered, a listing
    that fails later ends its channel with a failure marker and Sync
    returns no error. *)
Theorem Sync_error_iff {A B : Type} (fuel : nat) (src : ObjectStorage A)
  (dst : ObjectStorage B) (d : Disk) (sa : A) (sb : B) (s : Stats)
  (marker end_ : string) :
  ((exists e s', Sync fuel src dst d sa sb s marker end_ = Returned (Some e) s') <->
   (exists e sa', List src sa "" marker MaxResults = (inr e, sa')) \/
   (exists e sb', List dst sb "" marker MaxResults = (inr e, sb'))) /\
  (forall cha chb,
     Iterate fuel src sa marker end_ = inl cha ->
     Iterate fuel dst sb marker end_ = inl chb ->
     is_fatal (Listing.ended cha) || is_fatal (Listing.ended chb) = false ->
     is_out_of_fuel (Listing.ended cha) || is_out_of_fuel (Listing.ended chb) = false ->
     exists s', Sync fuel src dst d sa sb s marker end_ = Returned None s').
Proof.
  split.
  - unfold Sync, Iterate.
    destruct (List src sa "" marker MaxResults) as [[objs|e] sa'].
    + destruct (List dst sb "" marker MaxResults) as [[objs'|e'] sb'].
      * split.
        -- intros (e & s' & H).
           destruct (is_fatal _ || is_fatal _); [discriminate|].
           destruct (is_out_of_fuel _ || is_out_of_fuel _); [discriminate|].
           destruct (doSync _ _ _) as [st rest].
           destruct (worker _ _ _ _ _ _ _) as [[s1 a1] b1]. discriminate.
        -- intros [(e & x & H)|(e & x & H)]; discriminate.
      * split; [|now eexists _, _].
        intros _. right. now eexists _, _.
    + split; [|now eexists _, _].
      intros _. left. now eexists _, _.
  - intros cha chb Ha Hb Hf Ho. unfold Sync. rewrite Ha, Hb, Hf, Ho.
    destruct (doSync _ _ _) as [st rest].
    destruct (worker _ _ _ _ _ _ _) as [[s1 a1] b1]. now exists s1.
Qed.

(** The second page of the source listing fails after the first gave the
    key "a", and the destination is empty: the record is replicated and
    Sync returns no error. *)
Example Sync_mid_stream_failure :
  let src :=
    scripted (fun _ off limit => inl (mkReader (Ranged.slice [Byte.x68] off limit) None))
      (fun _ => None) in
  Sync 5 src Ranged.memory healthy [inl [mkObject "a" 1]; inr "timeout"] [] zero "" ""
  = Returned None (mkStats 1 1 1 0).
Proof. reflexivity. Qed.

(** With enough fuel for the scripts of two scripted stores, Sync gives an
    answer. *)
Lemma Iterate_scripted_ends (get : string -> Z -> Z -> Reader + error)
  (exists_ : string -> option error) (script : list (list Object + error))
  (fuel : nat) (marker end_ : string) (r : Listing.run (list (list Object + error))) :
  (List.length script <= fuel)%nat ->
  Iterate fuel (scripted get exists_) script marker end_ = inl r ->
  is_out_of_fuel (Listing.ended r) = false.
Proof.
  intros Hfuel. unfold Iterate. cbn [List scripted].
  destruct script as [|[objs|e] script]; [| |discriminate].
  - intros H. injection H as <-. now destruct fuel.
  - intros H. injection H as <-. cbn [Listing.called Listing.ended].
    pose proof (pages_scripted_ends get exists_ end_ script fuel objs "") as Hp.
    destruct (Listing.ended _); try reflexivity.
    exfalso. apply Hp; [cbn in Hfuel; lia|reflexivity].
Qed.

Lemma Sync_scripted_answers (get get' : string -> Z -> Z -> Reader + error)
  (exists_ exists' : string -> option error) (sa sb : list (list Object + error))
  (fuel : nat) (d : Disk) (s : Stats) (marker end_ : string) :
  (List.length sa <= fuel)%nat -> (List.length sb <= fuel)%nat ->
  Sync fuel (scripted get exists_) (scripted get' exists') d sa sb s marker end_
    <> NoAnswer.
Proof.
  intros Ha Hb. unfold Sync.
  destruct (Iterate fuel (scripted get exists_) sa marker end_) as [cha|e] eqn:Ea;
    [|discriminate].
  destruct (Iterate fuel (scripted get' exists') sb marker end_) as [chb|e] eqn:Eb;
    [|discriminate].
  rewrite (Iterate_scripted_ends _ _ _ _ _ _ _ Ha Ea).
  rewrite (Iterate_scripted_ends _ _ _ _ _ _ _ Hb Eb).
  destruct (is_fatal _ || is_fatal _); [discriminate|]. cbn [orb].
  destruct (doSync _ _ _) as [st rest].
  destruct (worker _ _ _ _ _ _ _) as [[s1 a1] b1]. discriminate.
Qed.

(** ** The progress bar *)

(** C7: one turn of the display loop divides by [found] three times and
    tests it nowhere: with [found] at zero the turn is a division by zero,
    and with [found] above zero it prints a bar of 80 cells. *)
Theorem showProgress_needs_found (s : Stats) :
  uint64 (found s) ->
  (found s = 0 -> showProgress s = None) /\
  (0 < found s ->
   exists bar pct, showProgress s = Some (bar, pct) /\ List.length bar = 80%nat) /\
  (showProgress s <> None <-> 0 < found s).
Proof.
  intros Hf. unfold uint64 in Hf. unfold showProgress, Progress.uint64_div.
  destruct (Z.eqb_spec (found s) 0) as [H0|H0]; cbn [Progress.bind].
  - split; [reflexivity|]. split; [lia|]. split; [intros H; now elim H|lia].
  - split; [contradiction|]. split.
    + intros _. eexists _, _. split; [reflexivity|].
      now rewrite length_map, length_seq.
    + split; [lia|discriminate].
Qed.

Lemma showProgress_needs_found_witness :
  uint64 (found zero) /\ showProgress zero = None /\
  uint64 (found (mkStats 10 4 2 0)) /\ showProgress (mkStats 10 4 2 0) <> None.
Proof.
  assert (U0 : uint64 (found zero)) by (unfold uint64; cbn; lia).
  assert (U1 : uint64 (found (mkStats 10 4 2 0))) by (unfold uint64; cbn; lia).
  split; [exact U0|]. split.
  - apply (showProgress_needs_found zero U0). reflexivity.
  - split; [exact U1|].
    apply (showProgress_needs_found (mkStats 10 4 2 0) U1). cbn. lia.
Defined.

(** * Further properties of the comparison loop *)

Section DiffMore.

Import KeyFacts.

Lemma subseq_refl {A : Type} (l : list A) : subseq l l.
Proof. induction l; constructor; auto. Qed.

Lemma subseq_app {A : Type} (a b c d : list A) :
  subseq a b -> subseq c d -> subseq (a ++ c) (b ++ d).
Proof. induction 1; cbn; auto; constructor; auto. Qed.

(** One turn enqueues the record in hand or nothing. *)
Lemma body_todo (st : Diff.state) (obj : Object) :
  let st' := Diff.after (Diff.body st obj) in
  exists t, Diff.todo st' = Diff.todo st ++ t /\ subseq t [obj].
Proof.
  unfold Diff.body.
  destruct (Diff.advance _ _ _ _) as [[[dkey more] dst]|[[dkey more] dst]].
  - destruct (Keys.lt (Key obj) dkey || negb more); cbn.
    + exists [obj]. split; [reflexivity|apply subseq_refl].
    + exists []. rewrite app_nil_r. split; [reflexivity|repeat constructor].
  - cbn. exists []. rewrite app_nil_r. split; [reflexivity|repeat constructor].
Qed.

Lemma loop_todo (srckeys : chan) :
  forall st, exists got t,
    srckeys = got ++ snd (Diff.loop st srckeys) /\
    Diff.todo (fst (Diff.loop st srckeys)) = Diff.todo st ++ t /\
    subseq t (records got).
Proof.
  induction srckeys as [|[obj|] rest IH]; intros st.
  - exists [], []. cbn. rewrite app_nil_r. repeat split. constructor.
  - cbn [Diff.loop]. pose proof (body_todo st obj) as Hb. cbn zeta in Hb.
    destruct (Diff.body st obj) as [st'|st']; cbn [Diff.after] in Hb;
      destruct Hb as (t1 & Ht1 & Hs1).
    + destruct (IH st') as (got & t2 & Hgot & Ht2 & Hs2).
      exists (Some obj :: got), (t1 ++ t2). repeat split.
      * cbn. now rewrite <- Hgot.
      * now rewrite Ht2, Ht1, app_assoc.
      * change (records (Some obj :: got)) with ([obj] ++ records got).
        now apply subseq_app.
    + exists [Some obj], t1. cbn [fst snd]. repeat split; auto.
  - exists [None], []. cbn. rewrite app_nil_r. repeat split. constructor.
Qed.

(** On a destination channel without failure markers the inner loop never
    breaks out, and leaves such a channel. *)
Lemma advance_clean (k : string) (D : list Object) :
  forall dkey more, exists dkey' more' D',
    Diff.advance k dkey more (map Some D) = Diff.Next (dkey', more', map Some D').
Proof.
  induction D as [|d D IH]; intros dkey more; cbn.
  - destruct (more && Keys.lt dkey k); [exists dkey, false, []|exists dkey, more, []];
      reflexivity.
  - destruct (more && Keys.lt dkey k).
    + apply IH.
    + now exists dkey, more, (d :: D).
Qed.

Lemma body_clean (st : Diff.state) (obj : Object) (D : list Object) :
  Diff.dstkeys st = map Some D ->
  exists st' D', Diff.body st obj = Diff.Next st' /\ Diff.dstkeys st' = map Some D'.
Proof.
  intros HD. unfold Diff.body. rewrite HD.
  destruct (advance_clean (Key obj) D (Diff.dstkey st) (Diff.hasMore st))
    as (dkey & more & D' & ->).
  destruct (Keys.lt (Key obj) dkey || negb more); eexists _, D'; split; reflexivity.
Qed.

Lemma loop_source_failure (l : list Object) (post : chan) :
  forall st D, Diff.dstkeys st = map Some D ->
  Diff.loop st (map Some l ++ None :: post) = (fst (Diff.loop st (map Some l)), post).
Proof.
  induction l as [|obj l IH]; intros st D HD; [reflexivity|].
  cbn [map app Diff.loop].
  destruct (body_clean st obj D HD) as (st' & D' & -> & HD').
  now apply (IH st' D').
Qed.

(** After the destination is exhausted every record is enqueued. *)
Lemma loop_exhausted (l : list Object) :
  forall st, Diff.hasMore st = false ->
  Diff.todo (fst (Diff.loop st (map Some l))) = Diff.todo st ++ l /\
  Diff.dstkeys (fst (Diff.loop st (map Some l))) = Diff.dstkeys st /\
  Diff.hasMore (fst (Diff.loop st (map Some l))) = false /\
  snd (Diff.loop st (map Some l)) = [].
Proof.
  induction l as [|obj l IH]; intros st Hm.
  - cbn. now rewrite app_nil_r.
  - cbn [map Diff.loop]. unfold Diff.body.
    rewrite advance_stay by now rewrite Hm.
    rewrite Hm. cbn [negb]. rewrite orb_true_r.
    match goal with |- context [Diff.loop ?st' _] =>
      destruct (IH st' eq_refl) as (H1 & H2 & H3 & H4) end.
    rewrite H1, H2, H3, H4. cbn [Diff.todo Diff.dstkeys].
    now rewrite <- app_assoc.
Qed.

(** A destination that fails before a key above the cursor is found. *)
Lemma advance_breaks (k : string) (pre : list Object) (post : chan) :
  forall dkey, Keys.lt dkey k = true ->
  (forall d, In d pre -> Keys.lt (Key d) k = true) ->
  Diff.advance k dkey true (map Some pre ++ None :: post)
  = Diff.BreakOut (last_key_from dkey pre, true, post).
Proof.
  induction pre as [|d pre IH]; intros dkey Hk Hpre; cbn [map app Diff.advance].
  - now rewrite Hk.
  - rewrite Hk. cbn [andb]. rewrite last_key_from_cons. apply IH.
    + apply Hpre. now left.
    + intros x Hx. apply Hpre. now right.
Qed.

End DiffMore.

(** X1: whatever the two channels deliver, the records doSync enqueues are
    records it received from the source, each at most once and in the order
    received. *)
Theorem doSync_todo_subsequence (s : Stats) (srckeys dstkeys : chan) :
  exists got,
    srckeys = got ++ snd (doSync s srckeys dstkeys) /\
    subseq (Diff.todo (fst (doSync s srckeys dstkeys))) (records got).
Proof.
  unfold doSync.
  destruct (loop_todo srckeys (Diff.init s dstkeys)) as (got & t & Hgot & Ht & Hs).
  exists got. split; [exact Hgot|]. now rewrite Ht.
Qed.

(** X2: a failure marker on the source channel ends the comparison as the
    end of the listing would have: what came before it is compared as
    usual, and nothing after it is received. *)
Theorem doSync_source_failure (s : Stats) (l D : list Object) (post : chan) :
  doSync s (map Some l ++ None :: post) (map Some D)
  = (fst (doSync s (map Some l) (map Some D)), post).
Proof.
  unfold doSync. now apply (loop_source_failure l post _ D).
Qed.

(** X3: a failure marker on the destination channel, met while looking for
    a key at or above the one in hand, ends the comparison at once: the
    source record in hand is counted in [found] but not enqueued, and the
    rest of the source channel is not received. *)
Theorem doSync_destination_failure (st : Diff.state) (obj : Object)
  (rest : chan) (pre : list Object) (post : chan) :
  Diff.hasMore st = true ->
  Keys.lt (Diff.dstkey st) (Key obj) = true ->
  Diff.dstkeys st = map Some pre ++ None :: post ->
  (forall d, In d pre -> Keys.lt (Key d) (Key obj) = true) ->
  Diff.loop st (Some obj :: rest)
  = (Diff.mkState (last_key_from (Diff.dstkey st) pre) true post (Diff.todo st)
       (add_found (Diff.stats st)) (Diff.log st ++ [Diff.AddFound]),
     rest).
Proof.
  intros Hm Hk Hd Hpre. cbn [Diff.loop]. unfold Diff.body.
  rewrite Hm, Hd, (advance_breaks _ pre post _ Hk Hpre). reflexivity.
Qed.

Lemma doSync_destination_failure_witness :
  let o := fun k => mkObject k 100 in
  doSync zero [Some (o "c"); Some (o "d")] [Some (o "a"); None; Some (o "e")]
  = (Diff.mkState "a" true [Some (o "e")] [] (mkStats 1 0 0 0) [Diff.AddFound],
     [Some (o "d")]).
Proof.
  intros o.
  apply (doSync_destination_failure
           (Diff.init zero [Some (o "a"); None; Some (o "e")]) (o "c")
           [Some (o "d")] [o "a"] [Some (o "e")]).
  - reflexivity.
  - reflexivity.
  - reflexivity.
  - intros d [<-|[]]. reflexivity.
Defined.

(** X4: once the destination channel was found closed, every source record
    received is enqueued, one with the empty key too, and counted in both
    [found] and [missing]; the destination is not read again. *)
Theorem doSync_after_destination_end (st : Diff.state) (l : list Object) :
  Diff.hasMore st = false ->
  let r := Diff.loop st (map Some l) in
  Diff.todo (fst r) = Diff.todo st ++ l /\
  Diff.dstkeys (fst r) = Diff.dstkeys st /\
  Log.founds (skipn (List.length (Diff.log st)) (Diff.log (fst r))) = List.length l /\
  Log.missings (skipn (List.length (Diff.log st)) (Diff.log (fst r))) = List.length l /\
  snd r = [].
Proof.
  intros Hm r. subst r.
  destruct (loop_exhausted l st Hm) as (H1 & H2 & _ & H4).
  destruct (loop_log (map Some l) st)
    as (got & lg & Hgot & Hlog & _ & Hf & Htodo & Hml & _).
  rewrite H4, app_nil_r in Hgot. subst got.
  rewrite records_some in Hf.
  rewrite H1 in Htodo. apply app_inv_head in Htodo.
  rewrite Hlog, skipn_app, Nat.sub_diag, skipn_all. cbn [skipn app].
  repeat split; auto. now rewrite Hml, <- Htodo.
Qed.

Lemma doSync_after_destination_end_witness :
  let o := fun k => mkObject k 100 in
  let st := Diff.mkState "b" false [] [o "a"] (mkStats 2 1 0 0)
              [Diff.AddFound; Diff.Enqueue (o "a"); Diff.AddMissing; Diff.AddFound] in
  Diff.todo (fst (Diff.loop st [Some (o ""); Some (o "c")])) = [o "a"; o ""; o "c"].
Proof.
  intros o st.
  exact (proj1 (doSync_after_destination_end st [o ""; o "c"] eq_refl)).
Defined.

(** X5: against an empty destination listing every source record is
    enqueued, from the first one on when its key is not empty, whatever the
    order of the source. *)
Theorem doSync_empty_destination (s : Stats) (o : Object) (l : list Object) :
  Key o <> "" ->
  Diff.todo (fst (doSync s (map Some (o :: l)) [])) = o :: l /\
  snd (doSync s (map Some (o :: l)) []) = [].
Proof.
  intros Hne. unfold doSync. cbn [map Diff.loop]. unfold Diff.body.
  cbn [Diff.init Diff.dstkey Diff.hasMore Diff.dstkeys].
  cbn [Diff.advance]. rewrite (KeyFacts.lt_empty_l _ Hne). cbn [andb negb].
  rewrite orb_true_r.
  match goal with |- context [Diff.loop ?st' _] =>
    destruct (loop_exhausted l st' eq_refl) as (H1 & _ & _ & H4) end.
  now rewrite H1, H4.
Qed.

Lemma doSync_empty_destination_witness :
  let o := fun k => mkObject k 100 in
  Diff.todo (fst (doSync zero (map Some [o "b"; o "a"; o ""]) [])) = [o "b"; o "a"; o ""].
Proof.
  intros o.
  refine (proj1 (doSync_empty_destination zero (o "b") [o "a"; o ""] _)).
  discriminate.
Defined.

(** What is enqueued from two sorted listings, the source keys that are
    empty set aside first. *)
Lemma sorted_todo (s : Stats) (S D : list Object) :
  strictly_sorted S = true -> strictly_sorted D = true ->
  Diff.todo (fst (doSync s (map Some S) (map Some D))) =
    filter (absent D) (filter (fun o => negb (Key o =? "")%string) S) /\
  snd (doSync s (map Some S) (map Some D)) = [].
Proof.
  intros HS HD. unfold doSync.
  assert (Hkeep : forall l : list Object, (forall o, In o l -> Key o <> "") ->
            filter (fun o => negb (Key o =? "")%string) l = l).
  { induction l as [|x l IH]; intros Hl; [reflexivity|]. cbn [filter].
    assert (Hx : Key x <> "") by (apply Hl; now left).
    apply String.eqb_neq in Hx. rewrite Hx. cbn [negb]. f_equal.
    apply IH. intros y Hy. apply Hl. now right. }
  destruct S as [|o S]; [now split|].
  assert (Htail : forall x, In x S -> Key x <> "").
  { intros x Hx Hk. pose proof (sorted_above o S HS x Hx) as H.
    rewrite Hk, KeyFacts.lt_empty_r in H. discriminate. }
  destruct (String.eqb_spec (Key o) "") as [Ho|Ho].
  - cbn [map Diff.loop filter]. unfold Diff.body.
    rewrite advance_stay by (cbn; rewrite Ho; apply KeyFacts.lt_irrefl).
    cbn [Diff.dstkey Diff.init]. rewrite Ho, KeyFacts.lt_irrefl.
    cbn [orb negb Diff.hasMore Diff.init String.eqb].
    match goal with |- context [Diff.loop ?st _] =>
      destruct (loop_sound D S st) as [H1 H2] end.
    + now apply sorted_tail in HS.
    + exact Htail.
    + intros x _. now apply inv_fresh.
    + rewrite H1, H2, (Hkeep S Htail). now split.
  - destruct (loop_sound D (o :: S) (Diff.init s (map Some D))) as [H1 H2].
    + exact HS.
    + intros x [<-|Hx]; auto.
    + intros x _. now apply inv_fresh.
    + rewrite H1, H2, Hkeep; [now split|]. intros x [<-|Hx]; auto.
Qed.

Lemma filter_absent_own (D l : list Object) :
  (forall o, In o l -> In o D) -> filter (absent D) l = [].
Proof.
  induction l as [|x l IH]; intros Hl; [reflexivity|]. cbn [filter].
  unfold absent at 1.
  replace (present (Key x) D) with true.
  - cbn [negb]. apply IH. intros y Hy. apply Hl. now right.
  - symmetry. apply present_spec. exists x. split; [apply Hl; now left|reflexivity].
Qed.

(** X6: when the destination lists the very records the source lists, in
    strictly increasing key order, nothing is enqueued: [missing] stays as
    it was and [found] grows by the number of records. *)
Theorem doSync_identical_listings (s : Stats) (S : list Object) :
  strictly_sorted S = true -> uint64 (found s) -> uint64 (missing s) ->
  let r := doSync s (map Some S) (map Some S) in
  Diff.todo (fst r) = [] /\
  missing (Diff.stats (fst r)) = missing s /\
  found (Diff.stats (fst r)) = (found s + Z.of_nat (List.length S)) mod 2 ^ 64 /\
  snd r = [].
Proof.
  intros HS Hf Hm r. subst r.
  destruct (sorted_todo s S S HS HS) as [Htodo Hrest].
  rewrite filter_absent_own in Htodo
    by (intros o Ho; apply filter_In in Ho; tauto).
  unfold doSync in *.
  destruct (loop_log (map Some S) (Diff.init s (map Some S)))
    as (got & l & Hgot & _ & _ & Hfl & Ht & Hml & Hstats).
  rewrite Hrest, app_nil_r in Hgot. subst got. rewrite records_some in Hfl.
  rewrite Htodo in Ht. cbn [Diff.init Diff.todo app] in Ht.
  rewrite <- Ht in Hml. cbn [List.length] in Hml.
  cbn [Diff.init Diff.stats] in Hstats.
  destruct (replay_counts l s Hf Hm) as [Rf Rm].
  rewrite Hstats, Rf, Rm, Hfl, Hml, Z.add_0_r.
  repeat split; auto. apply Z.mod_small. exact Hm.
Qed.

Lemma doSync_identical_listings_witness :
  let S := [mkObject "" 1; mkObject "a" 2; mkObject "b" 3] in
  let r := doSync zero (map Some S) (map Some S) in
  Diff.todo (fst r) = [] /\ missing (Diff.stats (fst r)) = 0.
Proof.
  intros S r.
  assert (U : uint64 0) by (unfold uint64; lia).
  destruct (doSync_identical_listings zero S eq_refl U U) as (H1 & H2 & _).
  split; [exact H1|exact H2].
Defined.

(** * Further properties of the listing stream *)

Lemma ascending_sorted (l : list Object) :
  forall lk, ascending lk l = true -> (forall o, In o l -> Key o <> "") ->
  strictly_sorted l = true.
Proof.
  induction l as [|o l IH]; intros lk Hasc Hne; [reflexivity|].
  cbn [ascending] in Hasc. apply andb_true_iff in Hasc as [_ Hasc].
  destruct l as [|o' l]; [reflexivity|].
  cbn [strictly_sorted]. apply andb_true_iff. split.
  - pose proof Hasc as H. cbn [ascending] in H.
    apply andb_true_iff in H as [H _]. apply orb_true_iff in H as [H|H]; [|exact H].
    apply String.eqb_eq in H. exfalso. apply (Hne o'); [right; now left|exact H].
  - apply (IH (Key o)); [exact Hasc|]. intros x Hx. apply Hne. now right.
Qed.

(** X7: when no record sent has the empty key, the stream of Iterate is in
    strictly increasing key order, which is what the comparison in doSync
    relies on. *)
Theorem Iterate_stream_sorted {St : Type} (fuel : nat) (store : ObjectStorage St)
  (st : St) (marker end_ : string) (r : Listing.run St) :
  Iterate fuel store st marker end_ = inl r ->
  (forall o, In (Some o) (Listing.out r) -> Key o <> "") ->
  strictly_sorted (records (Listing.out r)) = true.
Proof.
  intros HI Hne.
  destruct (Iterate_shape _ store end_ fuel st marker r HI) as (_ & _ & _ & Hasc & _).
  apply (ascending_sorted _ "" Hasc). intros o Ho. apply Hne. now apply in_records.
Qed.

Lemma Iterate_stream_sorted_witness :
  let o := fun k => mkObject k 100 in
  exists r,
    Iterate 5 listing_only [inl [o "a"; o "b"]; inl [o "c"]; inr "timeout"] "" "" = inl r /\
    strictly_sorted (records (Listing.out r)) = true.
Proof.
  intros o. eexists. split; [reflexivity|].
  apply (Iterate_stream_sorted 5 listing_only
           [inl [o "a"; o "b"]; inl [o "c"]; inr "timeout"] "" "" _ eq_refl).
  intros x Hx. cbn in Hx.
  destruct Hx as [Hx|[Hx|[Hx|[Hx|[]]]]]; try discriminate; injection Hx as <-;
    discriminate.
Defined.

(** X8: a stream that ended because the listing was exhausted or because a
    request failed has delivered every record the store listed, in the
    order listed, none twice. *)
Theorem Iterate_delivers_all {St : Type} (fuel : nat) (store : ObjectStorage St)
  (st : St) (marker end_ : string) (r : Listing.run St) :
  Iterate fuel store st marker end_ = inl r ->
  Listing.ended r = Listing.Exhausted \/ (exists e, Listing.ended r = Listing.ListFailed e) ->
  records (Listing.out r) = listed (Listing.calls r).
Proof.
  intros HI Hend.
  destruct (Iterate_shape _ store end_ fuel st marker r HI) as (_ & Hshape & _).
  destruct Hshape as (pre & m & resp & a & rest & Hcs & Hlast & Hrec & _ & Hstop).
  assert (Hresp : listed [(m, resp)] = []).
  { destruct Hend as [He|[e He]]; rewrite He in Hstop; cbn in Hstop; now subst resp. }
  rewrite Hresp in Hlast. symmetry in Hlast. apply app_eq_nil in Hlast as [-> _].
  now rewrite Hrec, Hcs, listed_app, Hresp.
Qed.

Lemma Iterate_delivers_all_witness :
  let o := fun k => mkObject k 100 in
  exists r,
    Iterate 5 listing_only [inl [o "a"; o "b"]; inl [o "c"]; inr "timeout"] "" "" = inl r /\
    records (Listing.out r) = [o "a"; o "b"; o "c"].
Proof.
  intros o. eexists. split; [reflexivity|].
  refine (Iterate_delivers_all 5 listing_only
            [inl [o "a"; o "b"]; inl [o "c"]; inr "timeout"] "" "" _ eq_refl _).
  right. now exists "timeout".
Defined.

(** X9: called without an end key, Iterate never stops at a record for
    being at or above the end: it ends by exhaustion, by a failed request
    or by the fatal abort. *)
Theorem Iterate_without_end {St : Type} (fuel : nat) (store : ObjectStorage St)
  (st : St) (marker : string) (r : Listing.run St) :
  Iterate fuel store st marker "" = inl r ->
  forall o, Listing.ended r <> Listing.ReachedEnd o.
Proof.
  intros HI o He.
  destruct (Iterate_shape _ store "" fuel st marker r HI) as (_ & Hshape & _).
  destruct Hshape as (pre & m & resp & a & rest & _ & _ & _ & _ & Hstop).
  rewrite He in Hstop. cbn in Hstop. destruct Hstop as (_ & _ & Hne & _). now apply Hne.
Qed.

Lemma Iterate_without_end_witness :
  let o := fun k => mkObject k 100 in
  exists r,
    Iterate 5 listing_only [inl [o "a"; o "zzzz"]; inl []] "" "" = inl r /\
    Listing.ended r = Listing.Exhausted /\
    Listing.ended r <> Listing.ReachedEnd (o "zzzz").
Proof.
  intros o. eexists. split; [reflexivity|]. split; [reflexivity|].
  exact (Iterate_without_end 5 listing_only [inl [o "a"; o "zzzz"]; inl []] "" _
           eq_refl (o "zzzz")).
Defined.

(** * Further properties of replicate and of the pool *)

(** Every path through [replicate]. *)
Ltac replicate_paths :=
  unfold replicate; cbv zeta;
  repeat match goal with
  | |- context [match ?x with _ => _ end] =>
      match x with
      | Get _ _ _ _ _ => destruct x as [[?in_|?e] ?sa] eqn:?
      | Exists _ _ _ => destruct x as [[?gone|] ?sa] eqn:?
      | Put _ _ _ _ => destruct x as [?r ?sb] eqn:?
      | broke _ => destruct x eqn:?
      | io_copy _ _ => destruct x eqn:?
      | tempfile_err _ => destruct x eqn:?
      | write_err _ => destruct x eqn:?
      | copy_err _ => destruct x eqn:?
      | seek_err _ => destruct x eqn:?
      | (_ =? _) => destruct x eqn:?
      end
  | |- context [let (_, _) := ?x in _] =>
      match x with
      | Put _ _ _ _ => destruct x as [?r ?sb] eqn:?
      end
  end.

(** X10: replicate writes to the destination at most once, and only under
    the key of the object; its answer is then the answer of that write.
    When it makes no write the destination is left as it was. *)
Theorem replicate_writes_once {A B : Type} (src : ObjectStorage A)
  (dst : ObjectStorage B) (d : Disk) (sa : A) (sb : B) (obj : Object) :
  let o := replicate src dst d sa sb obj in
  (filter is_put (trace o) = [] /\ dst_after o = sb) \/
  (exists body, filter is_put (trace o) = [DstPut (Key obj) body] /\
     result o = fst (Put dst sb (Key obj) body) /\
     dst_after o = snd (Put dst sb (Key obj) body)).
Proof.
  cbv zeta. replicate_paths; cbn [trace result dst_after];
    repeat rewrite filter_app; cbn [filter is_put app];
    try (left; split; reflexivity);
    right; eexists; (split; [reflexivity|]);
    match goal with H : Put _ _ _ _ = _ |- _ => rewrite H end; split; reflexivity.
Qed.

(** X11: an object of at most [maxBlock] bytes never gets a temporary file,
    whatever fails.  When a temporary file is made it is made once, right
    after the first read, removed at once, and closed as the last thing
    replicate does, on every path. *)
Theorem replicate_temp_file {A B : Type} (src : ObjectStorage A)
  (dst : ObjectStorage B) (d : Disk) (sa : A) (sb : B) (obj : Object) :
  let o := replicate src dst d sa sb obj in
  (Size obj <= maxBlock -> ~ In TempFile (trace o)) /\
  (tempfile_err d = None -> In TempFile (trace o) ->
   exists t, trace o = SrcGet (Key obj) 0 maxBlock :: TempFile :: Remove :: t /\
     last t Remove = FileClose /\ ~ In TempFile t).
Proof.
  cbv zeta. split.
  - intros Hsize.
    assert (E : (Size obj >? maxBlock) = false)
      by (rewrite Z.gtb_ltb; apply Z.ltb_ge; lia).
    unfold replicate. rewrite E. cbv zeta. change (-1 =? -1) with true. cbv iota.
    replicate_paths; cbn [trace app In]; intuition discriminate.
  - intros Htmp Hin.
    destruct (Size obj >? maxBlock) eqn:E.
    + revert Hin. unfold replicate. rewrite E, Htmp. cbv zeta.
      change (maxBlock =? -1) with false. cbv iota.
      replicate_paths; cbn [trace app In]; intros Hin;
        try (exfalso; intuition discriminate);
        eexists; (split; [reflexivity|]); cbn [last In];
        (split; [reflexivity|intuition discriminate]).
    + exfalso. revert Hin. unfold replicate. rewrite E. cbv zeta.
      change (-1 =? -1) with true. cbv iota.
      replicate_paths; cbn [trace app In]; intuition discriminate.
Qed.

Lemma replicate_temp_file_witness :
  let content := [Byte.x68; Byte.x69; Byte.x21] in
  let o := replicate Ranged.memory Ranged.memory healthy [("k", content)] []
             (mkObject "k" (maxBlock + 1)) in
  exists t, trace o = SrcGet "k" 0 maxBlock :: TempFile :: Remove :: t /\
    last t Remove = FileClose /\ ~ In TempFile t.
Proof.
  intros content o.
  apply (replicate_temp_file Ranged.memory Ranged.memory healthy [("k", content)] []
           (mkObject "k" (maxBlock + 1))).
  - reflexivity.
  - cbn. tauto.
Defined.

(** X12: replicate asks the source whether the key exists only when the
    first read request itself fails; a stream that breaks while being read,
    or any later failure, is answered with the error at once. *)
Theorem replicate_exists_only_after_failed_get {A B : Type} (src : ObjectStorage A)
  (dst : ObjectStorage B) (d : Disk) (sa : A) (sb : B) (obj : Object) :
  let o := replicate src dst d sa sb obj in
  let firstBlock := if Size obj >? maxBlock then maxBlock else -1 in
  In (SrcExists (Key obj)) (trace o) <->
  exists e sa1, Get src sa (Key obj) 0 firstBlock = (inr e, sa1).
Proof.
  cbv zeta. split.
  - replicate_paths; cbn [trace app In]; intros Hin;
      try (exfalso; intuition discriminate); eauto.
  - intros (e & sa1 & HG). unfold replicate. cbv zeta. rewrite HG.
    destruct (Exists src sa1 (Key obj)) as [[g|] sa2]; cbn; auto.
Qed.

(** X13: replicate answers success without having written to the
    destination only when the first read failed and the source then
    reported the key as gone. *)
Theorem replicate_success_without_write {A B : Type} (src : ObjectStorage A)
  (dst : ObjectStorage B) (d : Disk) (sa : A) (sb : B) (obj : Object) :
  let o := replicate src dst d sa sb obj in
  let firstBlock := if Size obj >? maxBlock then maxBlock else -1 in
  result o = None -> filter is_put (trace o) = [] ->
  exists e sa1 g sa2,
    Get src sa (Key obj) 0 firstBlock = (inr e, sa1) /\
    Exists src sa1 (Key obj) = (Some g, sa2).
Proof.
  cbv zeta. replicate_paths; cbn [trace result];
    repeat rewrite filter_app; cbn [filter is_put app];
    intros Hres Hput; try discriminate; eauto 10.
Qed.

Lemma replicate_success_without_write_witness :
  let src := scripted (fun _ _ _ => inr "connection reset") (fun _ => Some "not found") in
  exists e sa1 g sa2,
    Get src [] "k" 0 (-1) = (inr e, sa1) /\ Exists src sa1 "k" = (Some g, sa2).
Proof.
  intros src.
  apply (replicate_success_without_write src listing_only healthy [] []
           (mkObject "k" 5)); reflexivity.
Defined.



Lemma worker_counts {A B : Type} (src : ObjectStorage A) (dst : ObjectStorage B)
  (d : Disk) (todo : list Object) :
  forall (sa : A) (sb : B) (s : Stats),
  uint64 (copied s) -> uint64 (failed s) ->
  let s' := fst (fst (worker src dst d sa sb s todo)) in
  exists c f : nat,
    (c + f = List.length todo)%nat /\
    copied s' = (copied s + Z.of_nat c) mod 2 ^ 64 /\
    failed s' = (failed s + Z.of_nat f) mod 2 ^ 64 /\
    found s' = found s /\ missing s' = missing s.
Proof.
  unfold uint64.
  induction todo as [|obj todo IH]; intros sa sb s Hc Hf; cbn [worker].
  - exists 0%nat, 0%nat. cbn. rewrite !Z.add_0_r, !Z.mod_small by lia. auto.
  - set (o := replicate src dst d sa sb obj).
    assert (Hr : forall x, 0 <= (x + 1) mod 2 ^ 64 < 2 ^ 64)
      by (intros; apply Z.mod_pos_bound; lia).
    destruct (result o) as [e|]; cbn [account].
    + destruct (IH (src_after o) (dst_after o) (add_failed s)) as (c & f & H1 & H2 & H3 & H4 & H5).
      { exact Hc. } { cbn. apply Hr. }
      exists c, (S f). cbn zeta in *. rewrite H2, H3, H4, H5.
      cbn [add_failed copied failed found missing List.length]. unfold uint64_add.
      rewrite Zplus_mod_idemp_l.
      split; [lia|]. split; [reflexivity|]. split; [f_equal; lia|]. now split.
    + destruct (IH (src_after o) (dst_after o) (add_copied s)) as (c & f & H1 & H2 & H3 & H4 & H5).
      { cbn. apply Hr. } { exact Hf. }
      exists (S c), f. cbn zeta in *. rewrite H2, H3, H4, H5.
      cbn [add_copied copied failed found missing List.length]. unfold uint64_add.
      rewrite Zplus_mod_idemp_l.
      split; [lia|]. split; [f_equal; lia|]. split; [reflexivity|]. now split.
Qed.

(** X15: a worker accounts for every object it takes from the queue exactly
    once, as copied or as failed, whatever replicate answers; it touches
    neither [found] nor [missing]. *)
Theorem worker_accounts_each {A B : Type} (src : ObjectStorage A)
  (dst : ObjectStorage B) (d : Disk) (sa : A) (sb : B) (s : Stats)
  (todo : list Object) :
  uint64 (copied s) -> uint64 (failed s) ->
  copied s + failed s + Z.of_nat (List.length todo) < 2 ^ 64 ->
  let s' := fst (fst (worker src dst d sa sb s todo)) in
  copied s' + failed s' = copied s + failed s + Z.of_nat (List.length todo) /\
  copied s <= copied s' /\ failed s <= failed s' /\
  found s' = found s /\ missing s' = missing s.
Proof.
  intros Hc Hf Hsum.
  destruct (worker_counts src dst d todo sa sb s Hc Hf) as (c & f & H1 & H2 & H3 & H4 & H5).
  cbn zeta in *. unfold uint64 in *.
  rewrite H2, H3, H4, H5, !Z.mod_small by lia. repeat split; lia.
Qed.

Lemma worker_accounts_each_witness :
  let src := scripted (fun k _ _ => if (k =? "a")%string
                                    then inl (mkReader [Byte.x68] None)
                                    else inr "connection reset") (fun _ => None) in
  let s' := fst (fst (worker src Ranged.memory healthy [] [] zero
                        [mkObject "a" 1; mkObject "b" 1])) in
  copied s' + failed s' = 2 /\ copied s' = 1.
Proof.
  intros src s'.
  assert (U : uint64 0) by (unfold uint64; lia).
  destruct (worker_accounts_each src Ranged.memory healthy [] [] zero
              [mkObject "a" 1; mkObject "b" 1] U U) as (H & _).
  - cbn. lia.
  - split; [exact H|reflexivity].
Defined.

(** * Further properties of Sync *)

Lemma replay_keeps (l : list Diff.event) :
  forall s, copied (Diff.replay s l) = copied s /\ failed (Diff.replay s l) = failed s.
Proof.
  induction l as [|e l IH]; intros s; [now split|].
  change (Diff.replay s (e :: l)) with (Diff.replay (Diff.replay1 s e) l).
  destruct (IH (Diff.replay1 s e)) as [H1 H2]. rewrite H1, H2. now destruct e.
Qed.

(** The counters when the comparison of two channels ends, from zero. *)
Lemma doSync_from_zero (srckeys dstkeys : chan) :
  Z.of_nat (List.length srckeys) < 2 ^ 64 ->
  let st := fst (doSync zero srckeys dstkeys) in
  exists got,
    srckeys = got ++ snd (doSync zero srckeys dstkeys) /\
    found (Diff.stats st) = Z.of_nat (List.length (records got)) /\
    missing (Diff.stats st) = Z.of_nat (List.length (Diff.todo st)) /\
    (List.length (Diff.todo st) <= List.length (records got))%nat /\
    copied (Diff.stats st) = 0 /\ failed (Diff.stats st) = 0.
Proof.
  intros Hlen. cbv zeta. unfold doSync.
  destruct (loop_log srckeys (Diff.init zero dstkeys))
    as (got & l & Hgot & _ & Hbal & Hfl & Htodo & Hml & Hstats).
  cbn [Diff.init Diff.todo Diff.stats app] in Htodo, Hstats.
  assert (U : uint64 0) by (unfold uint64; lia).
  destruct (replay_counts l zero U U) as [Rf Rm].
  destruct (replay_keeps l zero) as [Rc Rx].
  pose proof (Hbal l [] (eq_sym (app_nil_r l))) as Hb.
  pose proof (records_length got) as Hrl.
  assert (Hgl : (List.length got <= List.length srckeys)%nat).
  { rewrite Hgot at 1. rewrite length_app. lia. }
  exists got. rewrite Hstats, Rf, Rm, Rc, Rx, Htodo, <- Hml, Hfl.
  cbn [found missing copied failed zero].
  rewrite !Z.mod_small by lia. repeat split; auto. lia.
Qed.

(** X16: when Sync, started with the counters at zero, returns without
    error, every object counted as missing was counted once more as copied
    or as failed, and no more objects are missing than were found. *)
Theorem Sync_accounts {A B : Type} (fuel : nat) (src : ObjectStorage A)
  (dst : ObjectStorage B) (d : Disk) (sa : A) (sb : B) (marker end_ : string)
  (cha : Listing.run A) (s' : Stats) :
  Iterate fuel src sa marker end_ = inl cha ->
  Z.of_nat (List.length (Listing.out cha)) < 2 ^ 64 ->
  Sync fuel src dst d sa sb zero marker end_ = Returned None s' ->
  copied s' + failed s' = missing s' /\
  missing s' <= found s' /\
  found s' <= Z.of_nat (List.length (records (Listing.out cha))).
Proof.
  intros Ha Hlen. unfold Sync. rewrite Ha.
  destruct (Iterate fuel dst sb marker end_) as [chb|e]; [|discriminate].
  destruct (is_fatal _ || is_fatal _); [discriminate|].
  destruct (is_out_of_fuel _ || is_out_of_fuel _); [discriminate|].
  destruct (doSync_from_zero (Listing.out cha) (Listing.out chb) Hlen)
    as (got & Hgot & Hf & Hm & Hle & Hc & Hx).
  cbv zeta in *.
  destruct (doSync zero (Listing.out cha) (Listing.out chb)) as [st rest].
  cbn [fst snd] in *.
  assert (U : uint64 0) by (unfold uint64; lia).
  pose proof (worker_counts src dst d (Diff.todo st) (Listing.store_after cha)
                (Listing.store_after chb) (Diff.stats st)) as Hw.
  rewrite Hc, Hx in Hw. specialize (Hw U U). cbv zeta in Hw.
  destruct (worker _ _ _ _ _ _ _) as [[s1 a1] b1]. cbn [fst] in Hw.
  destruct Hw as (c & f & H1 & H2 & H3 & H4 & H5).
  intros H. injection H as <-.
  assert (Hsub : (List.length (records got) <= List.length (records (Listing.out cha)))%nat).
  { rewrite Hgot. rewrite records_app, length_app. lia. }
  pose proof (records_length (Listing.out cha)) as Hrl.
  rewrite H2, H3, H4, H5, Hf, Hm. rewrite !Z.mod_small by lia. lia.
Qed.

Lemma Sync_accounts_witness :
  let src :=
    scripted (fun k off limit =>
                if (k =? "a")%string
                then inl (mkReader (Ranged.slice [Byte.x68] off limit) None)
                else inr "connection reset")
      (fun _ => None) in
  let script := [inl [mkObject "a" 1; mkObject "b" 1; mkObject "c" 1]; inl []] in
  exists s', Sync 5 src Ranged.memory healthy script [] zero "" "" = Returned None s' /\
    copied s' + failed s' = missing s' /\ missing s' <= found s'.
Proof.
  intros src script. eexists. split; [reflexivity|].
  edestruct (Sync_accounts 5 src Ranged.memory healthy script [] "" "")
    as (H1 & H2 & _).
  - reflexivity.
  - cbn. lia.
  - reflexivity.
  - split; [exact H1|exact H2].
Defined.





(** * Further properties of the progress bar *)

Lemma map_seq_const {X : Type} (f : nat -> X) (c : X) (len : nat) :
  forall start, (forall i, (start <= i < start + len)%nat -> f i = c) ->
  map f (seq start len) = repeat c len.
Proof.
  induction len as [|len IH]; intros start H; [reflexivity|].
  cbn [seq map repeat]. rewrite H by lia. f_equal.
  apply IH. intros i Hi. apply H. lia.
Qed.

(** The cells of the bar, by kind. *)
Lemma bar_cells (a b : Z) (width : nat) :
  0 <= a -> 0 <= b -> a + b <= Z.of_nat width -> a + b < 2 ^ 64 ->
  map (fun i => Progress.cell a b (Z.of_nat i)) (seq 0 width)
  = repeat Byte.x3d (Z.to_nat a) ++ repeat Byte.x2b (Z.to_nat b)
    ++ repeat Byte.x20 (width - Z.to_nat a - Z.to_nat b).
Proof.
  intros Ha Hb Hw Hwrap.
  assert (Hsum : uint64_add a b = a + b) by (unfold uint64_add; apply Z.mod_small; lia).
  replace width
    with (Z.to_nat a + (Z.to_nat b + (width - Z.to_nat a - Z.to_nat b)))%nat at 1 by lia.
  rewrite !seq_app, !map_app. cbn [plus]. f_equal; [|f_equal].
  - apply map_seq_const. intros i Hi. unfold Progress.cell.
    replace (Z.of_nat i <? a) with true by (symmetry; apply Z.ltb_lt; lia). reflexivity.
  - apply map_seq_const. intros i Hi. unfold Progress.cell. rewrite Hsum.
    replace (Z.of_nat i <? a) with false by (symmetry; apply Z.ltb_ge; lia).
    replace (Z.of_nat i <? a + b) with true by (symmetry; apply Z.ltb_lt; lia).
    reflexivity.
  - apply map_seq_const. intros i Hi. unfold Progress.cell. rewrite Hsum.
    replace (Z.of_nat i <? a) with false by (symmetry; apply Z.ltb_ge; lia).
    replace (Z.of_nat i <? a + b) with false by (symmetry; apply Z.ltb_ge; lia).
    reflexivity.
Qed.

(** X18: with counters that are consistent (copied at most missing, missing
    at most found, found above zero and far from wrapping around) a turn of
    the display loop prints 80 cells, first the '=' for the objects already
    present, then the '+' for those copied, then blanks, and a percentage
    between 0 and 100, which is 100 when every missing object was copied. *)
Theorem showProgress_bar (s : Stats) :
  0 <= copied s <= missing s -> missing s <= found s ->
  0 < found s < 2 ^ 56 ->
  let a := 80 * (found s - missing s) / found s in
  let b := 80 * copied s / found s in
  let pct := (found s - missing s + copied s) * 100 / found s in
  showProgress s =
    Some (repeat Byte.x3d (Z.to_nat a) ++ repeat Byte.x2b (Z.to_nat b)
            ++ repeat Byte.x20 (80 - Z.to_nat a - Z.to_nat b), pct) /\
  0 <= a /\ 0 <= b /\ a + b <= 80 /\ 0 <= pct <= 100 /\
  (copied s = missing s -> pct = 100).
Proof.
  intros Hc Hm Hf a b pct.
  assert (H56 : 2 ^ 56 * 256 = 2 ^ 64) by reflexivity.
  assert (Ha : 0 <= a) by (apply Z.div_pos; lia).
  assert (Hb : 0 <= b) by (apply Z.div_pos; lia).
  assert (Hab : a + b <= 80).
  { pose proof (Z.mul_div_le (80 * (found s - missing s)) (found s) ltac:(lia)).
    pose proof (Z.mul_div_le (80 * copied s) (found s) ltac:(lia)).
    fold a in H. fold b in H0. nia. }
  assert (Hp : 0 <= pct <= 100).
  { split; [apply Z.div_pos; lia|].
    apply Z.div_le_upper_bound; lia. }
  split; [|repeat split; try lia].
  - unfold showProgress, Progress.uint64_div, uint64_mul, uint64_sub, uint64_add.
    replace (found s =? 0) with false by (symmetry; apply Z.eqb_neq; lia).
    cbn [Progress.bind].
    rewrite (Z.mod_small (found s - missing s)) by lia.
    rewrite (Z.mod_small (80 * (found s - missing s))) by lia.
    rewrite (Z.mod_small (80 * copied s)) by lia.
    rewrite (Z.mod_small (found s - missing s + copied s)) by lia.
    rewrite (Z.mod_small ((found s - missing s + copied s) * 100)) by lia.
    fold a b pct. f_equal. f_equal.
    change (Z.to_nat 80) with 80%nat. apply bar_cells; lia.
  - intros E. subst pct. rewrite E.
    replace (found s - missing s + missing s) with (found s) by lia.
    rewrite Z.mul_comm. apply Z.div_mul. lia.
Qed.

Lemma showProgress_bar_witness :
  showProgress (mkStats 10 4 2 0) =
    Some (repeat Byte.x3d 48 ++ repeat Byte.x2b 16 ++ repeat Byte.x20 16, 80).
Proof.
  refine (proj1 (showProgress_bar (mkStats 10 4 2 0) _ _ _)); cbn; lia.
Defined.

(** * The destination channel is read in order *)

Lemma advance_reads_prefix (k : string) (dst : chan) :
  forall dkey more,
  exists used, dst = used ++ snd (Diff.after (Diff.advance k dkey more dst)).
Proof.
  induction dst as [|x dst IH]; intros dkey more; cbn [Diff.advance].
  - destruct (more && Keys.lt dkey k); now exists [].
  - destruct (more && Keys.lt dkey k).
    + destruct x as [d|].
      * destruct (IH (Key d) true) as [used Hused]. exists (Some d :: used).
        cbn [app]. now rewrite <- Hused.
      * now exists [None].
    + now exists [].
Qed.

Lemma body_reads_prefix (st : Diff.state) (obj : Object) :
  exists used, Diff.dstkeys st = used ++ Diff.dstkeys (Diff.after (Diff.body st obj)).
Proof.
  destruct (advance_reads_prefix (Key obj) (Diff.dstkeys st) (Diff.dstkey st)
              (Diff.hasMore st)) as [used Hused].
  exists used. unfold Diff.body.
  destruct (Diff.advance _ _ _ _) as [[[dkey more] dst]|[[dkey more] dst]];
    cbn [Diff.after snd] in *; [destruct (_ || _)|]; exact Hused.
Qed.

(** X19: doSync takes the destination records in the order the channel
    delivers them, none twice and none skipped, and only as far as the
    comparison needs: what it leaves on the channel is the rest of what the
    channel held. *)
Theorem doSync_reads_destination_in_order (s : Stats) (srckeys dstkeys : chan) :
  exists used, dstkeys = used ++ Diff.dstkeys (fst (doSync s srckeys dstkeys)).
Proof.
  unfold doSync.
  change dstkeys with (Diff.dstkeys (Diff.init s dstkeys)) at 1.
  generalize (Diff.init s dstkeys) as st.
  induction srckeys as [|[obj|] rest IH]; intros st; cbn [Diff.loop fst].
  - now exists [].
  - destruct (body_reads_prefix st obj) as [used Hused].
    destruct (Diff.body st obj) as [st'|st']; cbn [Diff.after fst] in *.
    + destruct (IH st') as [used' Hused']. exists (used ++ used').
      now rewrite <- app_assoc, <- Hused'.
    + now exists used.
  - now exists [].
Qed.
